(** * CRC-32 / CRC-64 checksum combination (bursavich.dev/crc)

    A shallow embedding of the packages [crc32] and [crc64] and of the
    lazily initialised cells of [internal/shared] and [internal/lazy],
    followed by the properties of the polynomial arithmetic, of the
    power table and of [Combine].

    The two packages are the same program text at two integer widths, so
    the embedding is written once and indexed by the width.  Unsigned
    machine integers are values of [Z] in [0, 2^nBits); every operation
    that could leave that range in Go is wrapped explicitly. *)

From Stdlib Require Import ZArith NArith List Lia Bool.
From Stdlib Require Import Strings.Byte.
From stdpp Require Import base list.

Local Open Scope Z_scope.

(* ================================================================== *)
(** * Outcomes of a call *)
(* ================================================================== *)

(** A Go call either returns, panics, or keeps running.  Loops whose
    exit is not syntactically bounded are modelled with fuel; running out
    of fuel is a third outcome, kept apart from both other ones. *)
Inductive outcome (A : Type) : Type :=
| Done (a : A)
| Panicked
| Spinning.
Arguments Done {A} a.
Arguments Panicked {A}.
Arguments Spinning {A}.

#[global] Instance outcome_ret : MRet outcome := fun A a => Done a.
#[global] Instance outcome_bind : MBind outcome := fun A B f m =>
  match m with
  | Done a => f a
  | Panicked => Panicked
  | Spinning => Spinning
  end.

(* ================================================================== *)
(** * Widths and machine integers *)
(* ================================================================== *)

(** [W32] is package crc32, [W64] is package crc64. *)
Inductive Width : Set := W32 | W64.

(** const Size = 4 (crc32), const Size = 8 (crc64). *)
Definition Size (w : Width) : Z :=
  match w with W32 => 4 | W64 => 8 end.

(** const nBits = Size * 8 *)
Definition nBits (w : Width) : Z := Size w * 8.

(** Conversion to the unsigned type of the width: wrap-around. *)
Definition uint (w : Width) (x : Z) : Z := x mod 2 ^ nBits w.

(** [x << n] on an unsigned value of the width. *)
Definition shl (w : Width) (x n : Z) : Z := uint w (Z.shiftl x n).

(** [^x] on an unsigned value of the width. *)
Definition lnot (w : Width) (x : Z) : Z := Z.lxor x (Z.ones (nBits w)).

(** A byte of the input as an integer. *)
Definition byteZ (v : byte) : Z := Z.of_N (Byte.to_N v).

(** Indexing an array: in range it reads the entry, out of range the Go
    runtime panics. *)
Definition index (tbl : list Z) (i : Z) : outcome Z :=
  match tbl !! Z.to_nat i with
  | Some t => Done t
  | None => Panicked
  end.

(* ================================================================== *)
(** * The byte-table primitive of the Go standard library *)
(* ================================================================== *)

(** The packages delegate [Checksum] and [Update] to [hash/crc32] and
    [hash/crc64].  Those are the standard reflected table-driven CRC;
    their portable ("simple") code is embedded here.  The accelerated
    paths of the standard library compute the same function. *)
Module std.

(** The predefined polynomials of hash/crc32 and hash/crc64. *)
Definition IEEE : Z := 0xedb88320.
Definition Castagnoli : Z := 0x82f63b78.
Definition Koopman : Z := 0xeb31d82e.
Definition ISO : Z := 0xD800000000000000.
Definition ECMA : Z := 0xC96C5795D7870F42.

(** One round of the inner loop of [MakeTable]:
    if crc&1 == 1 { crc = (crc >> 1) ^ poly } else { crc >>= 1 } *)
Definition round (poly crc : Z) : Z :=
  if Z.land crc 1 =? 1 then Z.lxor (Z.shiftr crc 1) poly
  else Z.shiftr crc 1.

(** t[i]: crc := i; eight rounds. *)
Definition entry (poly i : Z) : Z := Nat.iter 8 (round poly) i.

(** for i := 0; i < 256; i++ { ...; t[i] = crc } *)
Definition MakeTable (poly : Z) : list Z :=
  (fun i => entry poly (Z.of_nat i)) <$> seq 0 256.

(** crc = ^crc
    for _, v := range p { crc = tab[byte(crc)^v] ^ (crc >> 8) }
    return ^crc *)
Definition Update (w : Width) (crc : Z) (tab : list Z) (p : list byte) : Z :=
  lnot w
    (fold_left
       (fun crc v =>
          Z.lxor (tab !!! Z.to_nat (Z.lxor (Z.land crc 255) (byteZ v)))
                 (Z.shiftr crc 8))
       p (lnot w crc)).

End std.

(* ================================================================== *)
(** * Poly *)
(* ================================================================== *)

(** type Poly struct { poly; x2nTbl [nBits]uintN; stdlib *Table } *)
Record Poly : Type := mkPoly {
  poly : Z;
  x2nTbl : list Z;
  stdlib : list Z
}.

(** p.x2nTbl[n] = v *)
Definition set_x2nTbl (p : Poly) (n : nat) (v : Z) : Poly :=
  {| poly := poly p; x2nTbl := <[n := v]> (x2nTbl p); stdlib := stdlib p |}.

(** The loop of [multModP].  [m] is the mask, [v] the accumulator, [b]
    the shifted multiplicand.  The loop ends when the mask is zero, and
    what follows the loop is the panic. *)
Fixpoint multModP_loop (w : Width) (p : Poly) (fuel : nat) (a m v b : Z)
  : outcome Z :=
  match fuel with
  | O => Spinning
  | S fuel =>
    if m =? 0 then Panicked
    else
      let next v :=
        let xor := negb (Z.land b 1 =? 0) in
        let b := Z.shiftr b 1 in
        let b := if xor then Z.lxor b (poly p) else b in
        multModP_loop w p fuel a (Z.shiftr m 1) v b in
      if negb (Z.land a m =? 0) then
        let v := Z.lxor v b in
        if Z.land a (uint w (m - 1)) =? 0 then Done v else next v
      else next v
  end.

(** func (p *Poly) multModP(a, b) : the mask starts at the top bit and
    is halved nBits times before it is zero, so nBits + 1 tests of the
    loop condition are enough. *)
Definition multModP (w : Width) (p : Poly) (a b : Z) : outcome Z :=
  multModP_loop w p (S (Z.to_nat (nBits w))) a (shl w 1 (nBits w - 1)) 0 b.

(** The loop of [x2NModP]: for n != 0 { ... n >>= 1; k++ }.  [n] is an
    int64, its shift is the arithmetic one. *)
Fixpoint x2NModP_loop (w : Width) (p : Poly) (fuel : nat) (n k v : Z)
  : outcome Z :=
  match fuel with
  | O => Spinning
  | S fuel =>
    if n =? 0 then Done v
    else
      v ← (if negb (Z.land n 1 =? 0)
           then t ← index (x2nTbl p) (Z.land k (nBits w - 1));
                multModP w p t v
           else Done v);
      x2NModP_loop w p fuel (Z.shiftr n 1) (uint w (k + 1)) v
  end.

(** A non-negative int64 is zero after 63 shifts. *)
Definition x2NModP_fuel : nat := 64.

(** func (p *Poly) x2NModP(n int64, k uintN) *)
Definition x2NModP (w : Width) (p : Poly) (n k : Z) : outcome Z :=
  x2NModP_loop w p x2NModP_fuel n k (shl w 1 (nBits w - 1)).

(** for n := 1; n < nBits; n++ { v = p.multModP(v, v); p.x2nTbl[n] = v } *)
Fixpoint makePoly_loop (w : Width) (ns : list nat) (v : Z) (p : Poly)
  : outcome Poly :=
  match ns with
  | [] => Done p
  | n :: ns =>
    v ← multModP w p v v;
    makePoly_loop w ns v (set_x2nTbl p n v)
  end.

(** func makePoly(poly) *Poly *)
Definition makePoly (w : Width) (poly : Z) : outcome Poly :=
  let p := {| poly := poly;
              x2nTbl := replicate (Z.to_nat (nBits w)) 0;
              stdlib := std.MakeTable poly |} in
  let v := shl w 1 (nBits w - 2) in
  let p := set_x2nTbl p 0 v in
  makePoly_loop w (seq 1 (Z.to_nat (nBits w) - 1)) v p.

(** func (p *Poly) Polynomial() *)
Definition Polynomial (p : Poly) : Z := poly p.

(** func (p *Poly) Checksum(data []byte) *)
Definition Checksum (w : Width) (p : Poly) (data : list byte) : Z :=
  std.Update w 0 (stdlib p) data.

(** func (p *Poly) Update(sum, data []byte) *)
Definition Update (w : Width) (p : Poly) (sum : Z) (data : list byte) : Z :=
  std.Update w sum (stdlib p) data.

(** func (p *Poly) Combine(prev, next, n int64) *)
Definition Combine (w : Width) (p : Poly) (prev next n : Z) : outcome Z :=
  if prev =? 0 then Done next
  else if n <=? 0 then Done prev
  else
    x ← x2NModP w p n 3;
    m ← multModP w p prev x;
    Done (Z.lxor m next).

(** int64(len(b)) *)
Definition len (b : list byte) : Z := Z.of_nat (length b).

(* ================================================================== *)
(** * Lazily initialised cells and the well-known polynomials *)
(* ================================================================== *)

(** internal/shared.Val (crc32) and internal/lazy.Value (crc64) are the
    same code under two names:

      type Val[T any] struct { New func() T; once sync.Once; val T }
      func (v *Val[T]) Get() T {
          v.once.Do(func() { v.val = v.New() }); return v.val }

    A cell is [None] until [once.Do] has run and [Some x] afterwards; the
    constructor [New] is fixed when the package variable is declared and
    is an argument here.  The embedding is sequential.  A panic of [New]
    leaves through [Get]; no caller in these packages recovers it. *)
Module shared.

Definition Val (T : Type) : Type := option T.

Definition Get {T : Type} (New : unit -> outcome T) (v : Val T)
  : outcome T * Val T :=
  match v with
  | Some x => (Done x, v)
  | None =>
    match New () with
    | Done x => (Done x, Some x)
    | Panicked => (Panicked, v)
    | Spinning => (Spinning, v)
    end
  end.

End shared.

(** The package variables ieeePoly, castPoly, koopPoly (crc32) and
    isoPoly, ecmaPoly (crc64). *)
Record Globals : Type := mkGlobals {
  ieeePoly : shared.Val Poly;
  castPoly : shared.Val Poly;
  koopPoly : shared.Val Poly;
  isoPoly : shared.Val Poly;
  ecmaPoly : shared.Val Poly
}.

(** The state of a program that has not called any accessor yet. *)
Definition init_globals : Globals :=
  {| ieeePoly := None; castPoly := None; koopPoly := None;
     isoPoly := None; ecmaPoly := None |}.

(** func IEEE() *Poly { return ieeePoly.Get() } *)
Definition IEEE (g : Globals) : outcome Poly * Globals :=
  let (r, c) := shared.Get (fun _ => makePoly W32 std.IEEE) (ieeePoly g) in
  (r, {| ieeePoly := c; castPoly := castPoly g; koopPoly := koopPoly g;
         isoPoly := isoPoly g; ecmaPoly := ecmaPoly g |}).

(** func Castagnoli() *Poly { return castPoly.Get() } *)
Definition Castagnoli (g : Globals) : outcome Poly * Globals :=
  let (r, c) := shared.Get (fun _ => makePoly W32 std.Castagnoli) (castPoly g) in
  (r, {| ieeePoly := ieeePoly g; castPoly := c; koopPoly := koopPoly g;
         isoPoly := isoPoly g; ecmaPoly := ecmaPoly g |}).

(** func Koopman() *Poly { return koopPoly.Get() } *)
Definition Koopman (g : Globals) : outcome Poly * Globals :=
  let (r, c) := shared.Get (fun _ => makePoly W32 std.Koopman) (koopPoly g) in
  (r, {| ieeePoly := ieeePoly g; castPoly := castPoly g; koopPoly := c;
         isoPoly := isoPoly g; ecmaPoly := ecmaPoly g |}).

(** func ISO() *Poly { return isoPoly.Get() } *)
Definition ISO (g : Globals) : outcome Poly * Globals :=
  let (r, c) := shared.Get (fun _ => makePoly W64 std.ISO) (isoPoly g) in
  (r, {| ieeePoly := ieeePoly g; castPoly := castPoly g; koopPoly := koopPoly g;
         isoPoly := c; ecmaPoly := ecmaPoly g |}).

(** func ECMA() *Poly { return ecmaPoly.Get() } *)
Definition ECMA (g : Globals) : outcome Poly * Globals :=
  let (r, c) := shared.Get (fun _ => makePoly W64 std.ECMA) (ecmaPoly g) in
  (r, {| ieeePoly := ieeePoly g; castPoly := castPoly g; koopPoly := koopPoly g;
         isoPoly := isoPoly g; ecmaPoly := c |}).

(** func MakePoly(poly) *Poly: the switch over the known constants. *)
Definition MakePoly (w : Width) (poly : Z) (g : Globals)
  : outcome Poly * Globals :=
  match w with
  | W32 =>
    if poly =? std.IEEE then IEEE g
    else if poly =? std.Castagnoli then Castagnoli g
    else if poly =? std.Koopman then Koopman g
    else (makePoly W32 poly, g)
  | W64 =>
    if poly =? std.ISO then ISO g
    else if poly =? std.ECMA then ECMA g
    else (makePoly W64 poly, g)
  end.

(* ================================================================== *)
(** * Reference definitions for the arithmetic *)
(* ================================================================== *)

(** Multiplication by x modulo the generator, in reflected form: the
    value moves one bit down and the generator is added when a bit falls
    off.  This is the text of the tail of the loop body of [multModP]. *)
Definition mulX (g b : Z) : Z :=
  if negb (Z.land b 1 =? 0) then Z.lxor (Z.shiftr b 1) g else Z.shiftr b 1.

(** Multiplication by x^e. *)
Definition mulXn (g e a : Z) : Z := N.iter (Z.to_N e) (mulX g) a.

(** The polynomial 1, and x^e modulo the generator. *)
Definition one (w : Width) : Z := 2 ^ (nBits w - 1).
Definition xpow (w : Width) (g e : Z) : Z := mulXn g e (one w).

(** The sum, over the bits s <= t of a that are set, of x^(t-s) * b:
    what the loop of [multModP] has still to add when its mask is at
    bit t. *)
Fixpoint mulSum (g : Z) (t : nat) (a b : Z) : Z :=
  Z.lxor (if Z.testbit a (Z.of_nat t) then b else 0)
         (match t with
          | O => 0
          | S t' => mulSum g t' a (mulX g b)
          end).

(** The loop of [x2NModP] as the specification words it: one step per
    bit of n, lowest first, folding in the table entry at (k mod nBits)
    exactly when the bit is set. *)
Fixpoint x2NModP_fold (w : Width) (p : Poly) (bits : list bool) (k v : Z)
  : outcome Z :=
  match bits with
  | [] => Done v
  | b :: bits =>
    v ← (if b then t ← index (x2nTbl p) (k mod nBits w); multModP w p t v
         else Done v);
    x2NModP_fold w p bits (k + 1) v
  end.

(** The binary digits of a positive number, lowest first. *)
Fixpoint bits_pos (q : positive) : list bool :=
  match q with
  | xH => [true]
  | xO q => false :: bits_pos q
  | xI q => true :: bits_pos q
  end.

(** The bits of a non-negative n, lowest first, up to its highest set
    bit; none for zero. *)
Definition bits_of (n : Z) : list bool :=
  match n with
  | Z.pos q => bits_pos q
  | _ => []
  end.

(* ================================================================== *)
(** * Predicates and auxiliary data of the statements *)
(* ================================================================== *)

(** Entries 1 .. n-1 of a table are each the modular square of the entry
    before. *)
Definition squares (w : Width) (p : Poly) (n : nat) : Prop :=
  forall i : nat, (1 <= i < n)%nat ->
    exists u v, x2nTbl p !! (i - 1)%nat = Some u
                /\ x2nTbl p !! i = Some v
                /\ multModP w p u u = Done v.

(** The update loop without the table and without the two inversions. *)
Definition rawUpdate (g c : Z) (data : list byte) : Z :=
  fold_left (fun c v => mulXn g 8 (Z.lxor c (byteZ v))) data c.

(** A block of n zero bytes. *)
Definition zero_block (n : Z) : list byte := replicate (Z.to_nat n) x00.

(** A cell holds nothing yet, or the Poly its constructor returns. *)
Definition cell_ok (w : Width) (c : Z) (v : shared.Val Poly) : Prop :=
  match v with
  | None => True
  | Some p => makePoly w c = Done p
  end.

(** The invariant of the package variables. *)
Definition globals_ok (g : Globals) : Prop :=
  cell_ok W32 std.IEEE (ieeePoly g)
  /\ cell_ok W32 std.Castagnoli (castPoly g)
  /\ cell_ok W32 std.Koopman (koopPoly g)
  /\ cell_ok W64 std.ISO (isoPoly g)
  /\ cell_ok W64 std.ECMA (ecmaPoly g).

(** Is the value one of the constants of the switch of MakePoly? *)
Definition known_constant (w : Width) (c : Z) : bool :=
  match w with
  | W32 => (c =? std.IEEE) || (c =? std.Castagnoli) || (c =? std.Koopman)
  | W64 => (c =? std.ISO) || (c =? std.ECMA)
  end.

(** The accessors and the constants they stand for. *)
Inductive Known : Width -> Z -> (Globals -> outcome Poly * Globals) -> Prop :=
| Known_IEEE : Known W32 std.IEEE IEEE
| Known_Castagnoli : Known W32 std.Castagnoli Castagnoli
| Known_Koopman : Known W32 std.Koopman Koopman
| Known_ISO : Known W64 std.ISO ISO
| Known_ECMA : Known W64 std.ECMA ECMA.

(** The exponent that the loop of [x2NModP] reaches: bit i of n adds
    2^((k + i) mod nBits), the exponent of the table entry read. *)
Fixpoint x2n_exp (w : Width) (bits : list bool) (k : Z) : Z :=
  match bits with
  | [] => 0
  | b :: bits =>
    (if b then 2 ^ (k mod nBits w) else 0) + x2n_exp w bits (k + 1)
  end.

(** Is the square of the last table entry the first entry? *)
Definition wraps (w : Width) (p : Poly) : Prop :=
  exists t, index (x2nTbl p) (nBits w - 1) = Done t
            /\ multModP w p t t = index (x2nTbl p) 0.

(* ================================================================== *)
(** * Machine integers: ranges and bits *)
(* ================================================================== *)

Lemma nBits_cases (w : Width) : nBits w = 32 \/ nBits w = 64.
Proof. destruct w; [left | right]; reflexivity. Qed.

Lemma nBits_ge (w : Width) : 32 <= nBits w.
Proof. destruct (nBits_cases w); lia. Qed.

Lemma nBits_le (w : Width) : nBits w <= 64.
Proof. destruct (nBits_cases w); lia. Qed.

Lemma width_above_64 (w : Width) : 64 < 2 ^ nBits w.
Proof.
  apply Z.lt_le_trans with (2 ^ 32); [reflexivity |].
  apply Z.pow_le_mono_r; [lia | apply nBits_ge].
Qed.

Lemma uint_small (w : Width) (x : Z) : 0 <= x < 2 ^ nBits w -> uint w x = x.
Proof. intros H. unfold uint. now apply Z.mod_small. Qed.

Lemma pow2_lt_width (w : Width) (t : Z) :
  0 <= t < nBits w -> 0 < 2 ^ t < 2 ^ nBits w.
Proof.
  intros H. split; [apply Z.pow_pos_nonneg; lia |].
  apply Z.pow_lt_mono_r; lia.
Qed.

Lemma shl_one (w : Width) (t : Z) : 0 <= t < nBits w -> shl w 1 t = 2 ^ t.
Proof.
  intros H. unfold shl. rewrite Z.shiftl_1_l.
  apply uint_small. pose proof (pow2_lt_width w t H). lia.
Qed.

Lemma shl_top (w : Width) : shl w 1 (nBits w - 1) = one w.
Proof. apply shl_one. pose proof (nBits_ge w). lia. Qed.

Lemma one_range (w : Width) : 0 < one w < 2 ^ nBits w.
Proof. apply pow2_lt_width. pose proof (nBits_ge w). lia. Qed.

(** Two values below 2^n have their exclusive or below 2^n. *)
Lemma lxor_range (n a b : Z) :
  0 <= n -> 0 <= a < 2 ^ n -> 0 <= b < 2 ^ n -> 0 <= Z.lxor a b < 2 ^ n.
Proof.
  intros Hn Ha Hb.
  assert (H0 : 0 <= Z.lxor a b) by (apply Z.lxor_nonneg; lia).
  split; [exact H0 |].
  destruct (Z.eq_dec (Z.lxor a b) 0) as [-> | Hne];
    [apply Z.pow_pos_nonneg; lia |].
  assert (Hpos : 0 < n).
  { destruct (Z.eq_dec n 0) as [-> | ?]; [| lia].
    change (2 ^ 0) with 1 in *.
    assert (a = 0) as -> by lia. assert (b = 0) as -> by lia.
    now contradict Hne. }
  apply Z.log2_lt_pow2; [lia |].
  eapply Z.le_lt_trans; [apply Z.log2_lxor; lia |].
  apply Z.max_lub_lt.
  - destruct (Z.eq_dec a 0) as [-> | ?]; [simpl; lia |].
    apply Z.log2_lt_pow2; lia.
  - destruct (Z.eq_dec b 0) as [-> | ?]; [simpl; lia |].
    apply Z.log2_lt_pow2; lia.
Qed.

Lemma shiftr1_range (n a : Z) :
  0 <= a < 2 ^ n -> 0 <= Z.shiftr a 1 < 2 ^ n.
Proof.
  intros Ha. rewrite Z.shiftr_div_pow2 by lia. change (2 ^ 1) with 2.
  split; [apply Z.div_pos; lia |].
  apply Z.div_lt_upper_bound; lia.
Qed.

Lemma land_1_odd (b : Z) : Z.land b 1 = if Z.odd b then 1 else 0.
Proof.
  change 1 with (Z.ones 1) at 1. rewrite Z.land_ones by lia.
  change (2 ^ 1) with 2. apply Zmod_odd.
Qed.

Lemma land_pow2_testbit (a t : Z) :
  0 <= t -> (Z.land a (2 ^ t) =? 0) = negb (Z.testbit a t).
Proof.
  intros Ht. destruct (Z.testbit a t) eqn:E; simpl.
  - apply Z.eqb_neq. intros H0.
    assert (Hb : Z.testbit (Z.land a (2 ^ t)) t = true)
      by (rewrite Z.land_spec, E, Z.pow2_bits_true; auto).
    rewrite H0, Z.bits_0 in Hb. discriminate.
  - apply Z.eqb_eq. apply Z.bits_inj'. intros i Hi.
    rewrite Z.land_spec, Z.bits_0.
    destruct (Z.eq_dec t i) as [<- | Hne].
    + rewrite E. reflexivity.
    + rewrite Z.pow2_bits_false by lia. apply andb_false_r.
Qed.

(** The low t+1 bits of a are bit t together with the low t bits. *)
Lemma mod_pow2_succ (a t : Z) :
  0 <= t ->
  a mod 2 ^ (t + 1)
  = Z.lxor (if Z.testbit a t then 2 ^ t else 0) (a mod 2 ^ t).
Proof.
  intros Ht. apply Z.bits_inj'. intros i Hi.
  rewrite Z.lxor_spec.
  destruct (Z_lt_le_dec i t) as [Hlt | Hge].
  - rewrite !Z.mod_pow2_bits_low by lia.
    destruct (Z.testbit a t);
      [rewrite Z.pow2_bits_false by lia | rewrite Z.bits_0];
      reflexivity.
  - rewrite (Z.mod_pow2_bits_high a t i) by lia.
    destruct (Z.eq_dec i t) as [-> | Hne].
    + rewrite Z.mod_pow2_bits_low by lia.
      destruct (Z.testbit a t);
        [rewrite Z.pow2_bits_true by lia | rewrite Z.bits_0];
        reflexivity.
    + rewrite Z.mod_pow2_bits_high by lia.
      destruct (Z.testbit a t);
        [rewrite Z.pow2_bits_false by lia | rewrite Z.bits_0];
        reflexivity.
Qed.

Lemma mod_pow2_nonzero_bit (a t : Z) :
  0 <= t -> Z.testbit a t = true -> a mod 2 ^ (t + 1) <> 0.
Proof.
  intros Ht Hb H0.
  assert (Hc : Z.testbit (a mod 2 ^ (t + 1)) t = true)
    by (rewrite Z.mod_pow2_bits_low by lia; exact Hb).
  rewrite H0, Z.bits_0 in Hc. discriminate.
Qed.

(* ================================================================== *)
(** * Multiplication by x *)
(* ================================================================== *)

(** Equations between exclusive ors of the same operands, bit by bit. *)
Ltac xor_bits :=
  apply Z.bits_inj'; intros ? _;
  repeat rewrite Z.lxor_spec; repeat rewrite Z.bits_0;
  repeat match goal with
         | |- context [Z.testbit ?x ?i] => destruct (Z.testbit x i)
         end;
  reflexivity.

Lemma mulX_odd (g b : Z) :
  mulX g b = Z.lxor (Z.shiftr b 1) (if Z.odd b then g else 0).
Proof.
  unfold mulX. rewrite land_1_odd.
  destruct (Z.odd b); simpl; [reflexivity | now rewrite Z.lxor_0_r].
Qed.

Lemma mulX_even (g b : Z) : Z.odd b = false -> mulX g b = Z.shiftr b 1.
Proof. intros H. rewrite mulX_odd, H. apply Z.lxor_0_r. Qed.

Lemma mulX_0 (g : Z) : mulX g 0 = 0.
Proof. reflexivity. Qed.

(** Multiplication by x is additive. *)
Lemma mulX_lxor (g a b : Z) :
  mulX g (Z.lxor a b) = Z.lxor (mulX g a) (mulX g b).
Proof.
  rewrite !mulX_odd, Z.shiftr_lxor.
  rewrite <- !Z.bit0_odd, Z.lxor_spec.
  generalize (Z.shiftr a 1) (Z.shiftr b 1). intros sa sb.
  destruct (Z.testbit a 0), (Z.testbit b 0); simpl; xor_bits.
Qed.

Lemma mulX_range (n g b : Z) :
  0 <= n -> 0 <= g < 2 ^ n -> 0 <= b < 2 ^ n -> 0 <= mulX g b < 2 ^ n.
Proof.
  intros Hn Hg Hb. rewrite mulX_odd.
  apply lxor_range; [exact Hn | now apply shiftr1_range |].
  destruct (Z.odd b); [exact Hg |]. split; [lia |].
  apply Z.pow_pos_nonneg; lia.
Qed.

Lemma mulXn_0 (g a : Z) : mulXn g 0 a = a.
Proof. reflexivity. Qed.

Lemma mulXn_succ (g e a : Z) :
  0 <= e -> mulXn g (e + 1) a = mulX g (mulXn g e a).
Proof.
  intros He. unfold mulXn.
  rewrite Z2N.inj_add by lia. change (Z.to_N 1) with 1%N.
  rewrite N.add_1_r. apply N.iter_succ.
Qed.

Lemma mulXn_succ_r (g e a : Z) :
  0 <= e -> mulXn g (e + 1) a = mulXn g e (mulX g a).
Proof.
  intros He. unfold mulXn.
  rewrite Z2N.inj_add by lia. change (Z.to_N 1) with 1%N.
  rewrite N.add_1_r. apply N.iter_succ_r.
Qed.

Lemma mulXn_add (g e1 e2 a : Z) :
  0 <= e1 -> 0 <= e2 -> mulXn g (e1 + e2) a = mulXn g e1 (mulXn g e2 a).
Proof.
  intros H1 H2. unfold mulXn.
  rewrite Z2N.inj_add by lia. apply N.iter_add.
Qed.

(** Induction along the exponent of [mulXn]. *)
Lemma mulXn_ind (g : Z) (P : Z -> Z -> Prop) (a : Z) :
  P a a ->
  (forall b, P a b -> P a (mulX g b)) ->
  forall e, P a (mulXn g e a).
Proof.
  intros H0 HS e. unfold mulXn.
  induction (Z.to_N e) as [| n IH] using N.peano_ind.
  - exact H0.
  - rewrite N.iter_succ. apply HS, IH.
Qed.

Lemma mulXn_lxor (g e a b : Z) :
  mulXn g e (Z.lxor a b) = Z.lxor (mulXn g e a) (mulXn g e b).
Proof.
  unfold mulXn.
  induction (Z.to_N e) as [| n IH] using N.peano_ind.
  - reflexivity.
  - rewrite !N.iter_succ, IH. apply mulX_lxor.
Qed.

Lemma mulXn_zero (g e : Z) : mulXn g e 0 = 0.
Proof.
  apply (mulXn_ind g (fun _ b => b = 0)); [reflexivity |].
  intros b ->. apply mulX_0.
Qed.

Lemma mulXn_range (n g e a : Z) :
  0 <= n -> 0 <= g < 2 ^ n -> 0 <= a < 2 ^ n ->
  0 <= mulXn g e a < 2 ^ n.
Proof.
  intros Hn Hg Ha.
  apply (mulXn_ind g (fun _ b => 0 <= b < 2 ^ n)); [exact Ha |].
  intros b Hb. now apply mulX_range.
Qed.

(** Below the width, multiplying a monomial by x only moves its bit. *)
Lemma mulXn_pow2 (g t i : Z) :
  0 <= i <= t -> mulXn g i (2 ^ t) = 2 ^ (t - i).
Proof.
  intros [Hi Hit]. revert Hit. pattern i. apply natlike_ind; [| | exact Hi].
  - intros _. rewrite mulXn_0. f_equal. lia.
  - intros j Hj IH Hjt. unfold Z.succ. rewrite mulXn_succ by lia.
    rewrite IH by lia. rewrite mulX_even.
    + rewrite Z.shiftr_div_pow2 by lia. change (2 ^ 1) with 2.
      replace (t - j) with (t - (j + 1) + 1) by lia.
      rewrite Z.pow_add_r by lia. change (2 ^ 1) with 2.
      apply Z.div_mul. lia.
    + rewrite Z.odd_pow by lia. reflexivity.
Qed.

Lemma xpow_small (w : Width) (g i : Z) :
  0 <= i <= nBits w - 1 -> xpow w g i = 2 ^ (nBits w - 1 - i).
Proof. intros H. unfold xpow, one. now apply mulXn_pow2. Qed.

Lemma xpow_add (w : Width) (g e1 e2 : Z) :
  0 <= e1 -> 0 <= e2 -> xpow w g (e1 + e2) = mulXn g e1 (xpow w g e2).
Proof. intros H1 H2. unfold xpow. now apply mulXn_add. Qed.

Lemma xpow_succ (w : Width) (g e : Z) :
  0 <= e -> mulX g (xpow w g e) = xpow w g (e + 1).
Proof. intros He. unfold xpow. now rewrite mulXn_succ. Qed.

(** x^j times the monomial at bit t is x^(j + (nBits-1-t)). *)
Lemma mulXn_monomial (w : Width) (g j t : Z) :
  0 <= j -> 0 <= t <= nBits w - 1 ->
  mulXn g j (2 ^ t) = xpow w g (j + (nBits w - 1 - t)).
Proof.
  intros Hj Ht. rewrite xpow_add by lia. rewrite xpow_small by lia.
  do 2 f_equal. lia.
Qed.

(* ================================================================== *)
(** * multModP *)
(* ================================================================== *)

(** One turn of the loop, with the tail of its body named. *)
Lemma multModP_loop_eq (w : Width) (p : Poly) (fuel : nat) (a m v b : Z) :
  multModP_loop w p (S fuel) a m v b
  = if m =? 0 then Panicked
    else if negb (Z.land a m =? 0)
         then if Z.land a (uint w (m - 1)) =? 0
              then Done (Z.lxor v b)
              else multModP_loop w p fuel a (Z.shiftr m 1) (Z.lxor v b)
                                 (mulX (poly p) b)
         else multModP_loop w p fuel a (Z.shiftr m 1) v (mulX (poly p) b).
Proof. reflexivity. Qed.

Lemma mulSum_zero (g : Z) (t : nat) (a b : Z) :
  a mod 2 ^ (Z.of_nat t + 1) = 0 -> mulSum g t a b = 0.
Proof.
  revert b. induction t as [| t IH]; intros b H0.
  - cbn [mulSum]. destruct (Z.testbit a (Z.of_nat 0)) eqn:E; [| reflexivity].
    now apply mod_pow2_nonzero_bit in E.
  - cbn [mulSum].
    destruct (Z.testbit a (Z.of_nat (S t))) eqn:E.
    + now apply mod_pow2_nonzero_bit in E; [| lia].
    + rewrite mod_pow2_succ, E, Z.lxor_0_l in H0 by lia.
      rewrite IH; [reflexivity |].
      rewrite <- H0. f_equal. f_equal. lia.
Qed.

Lemma mask_pred (w : Width) (t : Z) (a : Z) :
  0 <= t < nBits w -> Z.land a (uint w (2 ^ t - 1)) = a mod 2 ^ t.
Proof.
  intros Ht. rewrite uint_small.
  - rewrite <- Z.land_ones by lia. rewrite Z.ones_equiv.
    f_equal.
  - pose proof (pow2_lt_width w t Ht). lia.
Qed.

Lemma shiftr_pow2_succ (t : Z) : 0 <= t -> Z.shiftr (2 ^ (t + 1)) 1 = 2 ^ t.
Proof.
  intros Ht. rewrite Z.shiftr_div_pow2 by lia. change (2 ^ 1) with 2.
  rewrite Z.pow_add_r by lia. change (2 ^ 1) with 2.
  apply Z.div_mul. lia.
Qed.

(** With the mask at bit t and a set bit of a left at or below t, the
    loop returns from inside, adding the rest of the sum. *)
Lemma multModP_loop_spec (w : Width) (p : Poly) (t : nat) :
  forall (fuel : nat) (a v b : Z),
    (t < fuel)%nat -> Z.of_nat t < nBits w ->
    a mod 2 ^ (Z.of_nat t + 1) <> 0 ->
    multModP_loop w p fuel a (2 ^ Z.of_nat t) v b
    = Done (Z.lxor v (mulSum (poly p) t a b)).
Proof.
  induction t as [| t IH]; intros fuel a v b Hf Ht Ha;
    (destruct fuel as [| fuel]; [lia |]); rewrite multModP_loop_eq.
  - change (2 ^ Z.of_nat 0) with 1. simpl (1 =? 0).
    change 1 with (2 ^ 0) at 1. rewrite land_pow2_testbit by lia.
    change (uint w (1 - 1)) with (uint w 0).
    assert (E : Z.testbit a 0 = true).
    { destruct (Z.testbit a 0) eqn:E; [reflexivity |].
      exfalso. apply Ha. rewrite mod_pow2_succ by lia.
      change (Z.of_nat 0) with 0. rewrite E.
      change (2 ^ 0) with 1. now rewrite Z.mod_1_r. }
    rewrite E. simpl negb. cbv iota.
    unfold uint. rewrite Z.mod_0_l by (pose proof (pow2_lt_width w 0); lia).
    rewrite Z.land_0_r. simpl (0 =? 0).
    cbn [mulSum]. change (Z.of_nat 0) with 0. rewrite E, Z.lxor_0_r.
    reflexivity.
  - assert (Hm : 0 < 2 ^ Z.of_nat (S t)) by (apply Z.pow_pos_nonneg; lia).
    destruct (Z.eqb_spec (2 ^ Z.of_nat (S t)) 0) as [? | _]; [lia |].
    rewrite land_pow2_testbit by lia. rewrite Bool.negb_involutive.
    rewrite mask_pred by lia.
    replace (Z.of_nat (S t)) with (Z.of_nat t + 1) in * by lia.
    rewrite shiftr_pow2_succ by lia.
    rewrite mod_pow2_succ in Ha by lia.
    cbn [mulSum]. replace (Z.of_nat (S t)) with (Z.of_nat t + 1) by lia.
    destruct (Z.testbit a (Z.of_nat t + 1)) eqn:E.
    + destruct (Z.eqb_spec (a mod 2 ^ (Z.of_nat t + 1)) 0) as [H0 | Hn0].
      * rewrite mulSum_zero by exact H0. now rewrite Z.lxor_0_r.
      * rewrite IH by (try lia; exact Hn0). f_equal. xor_bits.
    + rewrite Z.lxor_0_l in Ha.
      rewrite IH by (try lia; exact Ha). now rewrite Z.lxor_0_l.
Qed.

(** [multModP] on a non-zero first argument: it returns, and what it
    returns is the whole sum. *)
Lemma multModP_spec (w : Width) (p : Poly) (a b : Z) :
  0 < a < 2 ^ nBits w ->
  multModP w p a b
  = Done (mulSum (poly p) (Z.to_nat (nBits w - 1)) a b).
Proof.
  intros Ha. unfold multModP. rewrite shl_top. unfold one.
  pose proof (nBits_ge w) as Hw.
  replace (nBits w - 1) with (Z.of_nat (Z.to_nat (nBits w - 1))) at 1 by lia.
  rewrite multModP_loop_spec; [now rewrite Z.lxor_0_l | lia | lia |].
  replace (Z.of_nat (Z.to_nat (nBits w - 1)) + 1) with (nBits w) by lia.
  rewrite Z.mod_small; lia.
Qed.

(** Without a set bit in a the mask runs out and the loop falls through
    to the panic. *)
Lemma multModP_loop_zero (w : Width) (p : Poly) (fuel : nat) :
  forall (m v b : Z),
    0 <= m < 2 ^ Z.of_nat fuel ->
    multModP_loop w p (S fuel) 0 m v b = Panicked.
Proof.
  induction fuel as [| fuel IH]; intros m v b Hm;
    rewrite multModP_loop_eq;
    (destruct (Z.eqb_spec m 0) as [-> | Hne]; [reflexivity |]).
  - change (2 ^ Z.of_nat 0) with 1 in Hm. lia.
  - rewrite Z.land_0_l. simpl negb. cbv iota.
    apply IH.
    rewrite Z.shiftr_div_pow2 by lia. change (2 ^ 1) with 2.
    rewrite Nat2Z.inj_succ, Z.pow_succ_r in Hm by lia.
    split; [apply Z.div_pos; lia |].
    apply Z.div_lt_upper_bound; lia.
Qed.

(** X10.  MultModP with a zero first argument panics, whatever the
    second argument and the polynomial are. *)
Lemma multModP_zero (w : Width) (p : Poly) (b : Z) :
  multModP w p 0 b = Panicked.
Proof.
  unfold multModP. apply multModP_loop_zero.
  rewrite shl_top. pose proof (one_range w) as H1.
  pose proof (nBits_ge w).
  rewrite Z2Nat.id by lia. lia.
Qed.

(** ** Multiplying by a power of x *)

(** When the multiplicand is a power of x, the rest of the sum is that
    power applied to the low bits of a. *)
Lemma mulSum_xpow (w : Width) (g : Z) (t : nat) (a j : Z) :
  0 <= j -> Z.of_nat t <= nBits w - 1 ->
  mulSum g t a (xpow w g (j + (nBits w - 1 - Z.of_nat t)))
  = mulXn g j (a mod 2 ^ (Z.of_nat t + 1)).
Proof.
  intros Hj. induction t as [| t IH]; intros Ht.
  - cbn [mulSum]. rewrite mod_pow2_succ by lia.
    change (2 ^ Z.of_nat 0) with 1. rewrite Z.mod_1_r, !Z.lxor_0_r.
    destruct (Z.testbit a (Z.of_nat 0)); [| now rewrite mulXn_zero].
    change 1 with (2 ^ Z.of_nat 0).
    rewrite (mulXn_monomial w) by lia. reflexivity.
  - cbn [mulSum]. rewrite xpow_succ by lia.
    replace (j + (nBits w - 1 - Z.of_nat (S t)) + 1)
      with (j + (nBits w - 1 - Z.of_nat t)) by lia.
    rewrite IH by lia.
    replace (Z.of_nat (S t) + 1) with (Z.of_nat t + 1 + 1) by lia.
    rewrite (mod_pow2_succ a (Z.of_nat t + 1)) by lia.
    rewrite mulXn_lxor. f_equal.
    replace (Z.of_nat (S t)) with (Z.of_nat t + 1) by lia.
    destruct (Z.testbit a (Z.of_nat t + 1)); [| now rewrite mulXn_zero].
    rewrite (mulXn_monomial w) by lia. reflexivity.
Qed.

(** [multModP a (x^j)] is a times x^j. *)
Lemma multModP_xpow (w : Width) (p : Poly) (a j : Z) :
  0 < a < 2 ^ nBits w -> 0 <= j ->
  multModP w p a (xpow w (poly p) j) = Done (mulXn (poly p) j a).
Proof.
  intros Ha Hj. rewrite multModP_spec by exact Ha.
  pose proof (nBits_ge w) as Hw. f_equal.
  replace j with (j + (nBits w - 1 - Z.of_nat (Z.to_nat (nBits w - 1))))
    at 1 by lia.
  rewrite mulSum_xpow by lia.
  replace (Z.of_nat (Z.to_nat (nBits w - 1)) + 1) with (nBits w) by lia.
  rewrite Z.mod_small by lia. reflexivity.
Qed.

(** ** Powers of x are not zero *)

(** Below the top bit of a non-zero generator, multiplication by x keeps
    a value non-zero and below that bit. *)
Lemma mulX_pos (g b : Z) :
  0 < g -> 0 < b < 2 ^ (Z.log2 g + 1) ->
  0 < mulX g b < 2 ^ (Z.log2 g + 1).
Proof.
  intros Hg Hb.
  pose proof (Z.log2_spec g Hg) as [Hlo Hhi]. unfold Z.succ in Hhi.
  pose proof (Z.log2_nonneg g) as HL.
  assert (Hs : 0 <= Z.shiftr b 1 < 2 ^ Z.log2 g).
  { rewrite Z.shiftr_div_pow2 by lia. change (2 ^ 1) with 2.
    rewrite Z.pow_add_r in Hb by lia. change (2 ^ 1) with 2 in Hb.
    split; [apply Z.div_pos; lia |].
    apply Z.div_lt_upper_bound; lia. }
  assert (Hr : 0 <= mulX g b < 2 ^ (Z.log2 g + 1)).
  { apply mulX_range; lia. }
  assert (Hn : mulX g b <> 0); [| lia].
  rewrite mulX_odd. destruct (Z.odd b) eqn:E.
  - intros H0. apply Z.lxor_eq in H0. lia.
  - rewrite Z.lxor_0_r. rewrite Z.shiftr_div_pow2 by lia.
    change (2 ^ 1) with 2.
    pose proof (Zmod_odd b) as Hm. rewrite E in Hm.
    pose proof (Z.div_mod b 2). lia.
Qed.

Lemma xpow_pos (w : Width) (g e : Z) :
  0 < g < 2 ^ nBits w -> 0 <= e -> 0 < xpow w g e < 2 ^ nBits w.
Proof.
  intros Hg He. pose proof (nBits_ge w) as Hw.
  assert (HL : 0 <= Z.log2 g < nBits w).
  { split; [apply Z.log2_nonneg |]. apply Z.log2_lt_pow2; lia. }
  destruct (Z_le_gt_dec e (nBits w - 1 - Z.log2 g)) as [Hle | Hgt].
  - rewrite xpow_small by lia. apply pow2_lt_width. lia.
  - replace e with ((e - (nBits w - 1 - Z.log2 g)) + (nBits w - 1 - Z.log2 g))
      by lia.
    rewrite xpow_add, xpow_small by lia.
    replace (nBits w - 1 - (nBits w - 1 - Z.log2 g)) with (Z.log2 g) by lia.
    assert (Hin : 0 < mulXn g (e - (nBits w - 1 - Z.log2 g)) (2 ^ Z.log2 g)
                  < 2 ^ (Z.log2 g + 1)).
    { apply (mulXn_ind g (fun _ b => 0 < b < 2 ^ (Z.log2 g + 1))).
      - split; [apply Z.pow_pos_nonneg; lia |].
        apply Z.pow_lt_mono_r; lia.
      - intros b Hb. apply mulX_pos; lia. }
    assert (2 ^ (Z.log2 g + 1) <= 2 ^ nBits w)
      by (apply Z.pow_le_mono_r; lia).
    lia.
Qed.

(* ================================================================== *)
(** * makePoly: the power table *)
(* ================================================================== *)

(** [multModP] reads nothing of its receiver but the polynomial. *)
Lemma multModP_loop_poly (w : Width) (p p' : Poly) :
  poly p = poly p' ->
  forall fuel a m v b,
    multModP_loop w p fuel a m v b = multModP_loop w p' fuel a m v b.
Proof.
  intros Hp. induction fuel as [| fuel IH]; intros a m v b; [reflexivity |].
  rewrite !multModP_loop_eq, Hp, !IH. reflexivity.
Qed.

Lemma multModP_poly (w : Width) (p p' : Poly) (a b : Z) :
  poly p = poly p' -> multModP w p a b = multModP w p' a b.
Proof. intros Hp. unfold multModP. now apply multModP_loop_poly. Qed.

(** What a run of the loop from index n leaves behind. *)
Lemma makePoly_loop_inv (w : Width) (cnt : nat) :
  forall (n : nat) (v : Z) (p p' : Poly),
    makePoly_loop w (seq n cnt) v p = Done p' ->
    (1 <= n)%nat -> (n + cnt <= length (x2nTbl p))%nat ->
    x2nTbl p !! (n - 1)%nat = Some v ->
    squares w p n ->
    poly p' = poly p /\ stdlib p' = stdlib p
    /\ length (x2nTbl p') = length (x2nTbl p)
    /\ x2nTbl p' !! 0%nat = x2nTbl p !! 0%nat
    /\ squares w p' (n + cnt).
Proof.
  induction cnt as [| cnt IH]; intros n v p p' Hrun Hn Hlen Hv Hsq.
  - simpl in Hrun. injection Hrun as <-.
    rewrite Nat.add_0_r. auto.
  - cbn [seq makePoly_loop] in Hrun.
    destruct (multModP w p v v) as [v' | |] eqn:Hm; try discriminate Hrun.
    cbn [mbind outcome_bind] in Hrun.
    apply IH in Hrun.
    + destruct Hrun as (Hp & Hs & Hl & H0 & Hsq').
      cbn [set_x2nTbl poly stdlib x2nTbl] in Hp, Hs, Hl, H0.
      rewrite length_insert in Hl.
      rewrite list_lookup_insert_ne in H0 by lia.
      replace (n + S cnt)%nat with (S n + cnt)%nat by lia. auto.
    + lia.
    + cbn [set_x2nTbl x2nTbl]. rewrite length_insert. lia.
    + cbn [set_x2nTbl x2nTbl]. replace (S n - 1)%nat with n by lia.
      apply list_lookup_insert_eq. lia.
    + intros i Hi. cbn [set_x2nTbl x2nTbl].
      destruct (Nat.eq_dec i n) as [-> | Hne].
      * exists v, v'. rewrite list_lookup_insert_ne by lia.
        rewrite list_lookup_insert_eq by lia.
        repeat split; [exact Hv |].
        rewrite <- Hm. now apply multModP_poly.
      * destruct (Hsq i) as (u & x & Hu & Hx & Hux); [lia |].
        exists u, x. rewrite !list_lookup_insert_ne by lia.
        repeat split; [exact Hu | exact Hx |].
        rewrite <- Hux. now apply multModP_poly.
Qed.

(** The Poly that [makePoly] returns, when it returns. *)
Lemma makePoly_structure (w : Width) (g : Z) (p : Poly) :
  makePoly w g = Done p ->
  poly p = g /\ stdlib p = std.MakeTable g
  /\ length (x2nTbl p) = Z.to_nat (nBits w)
  /\ x2nTbl p !! 0%nat = Some (2 ^ (nBits w - 2))
  /\ squares w p (Z.to_nat (nBits w)).
Proof.
  intros Hrun. unfold makePoly in Hrun.
  pose proof (nBits_ge w) as Hw.
  apply makePoly_loop_inv in Hrun.
  - destruct Hrun as (Hp & Hs & Hl & H0 & Hsq).
    cbn [set_x2nTbl poly stdlib x2nTbl] in Hp, Hs, Hl, H0.
    rewrite length_insert, length_replicate in Hl.
    rewrite list_lookup_insert_eq in H0
      by (rewrite length_replicate; lia).
    rewrite shl_one in H0 by lia.
    replace (1 + (Z.to_nat (nBits w) - 1))%nat
      with (Z.to_nat (nBits w)) in Hsq by lia.
    auto.
  - lia.
  - cbn [set_x2nTbl x2nTbl]. rewrite length_insert, length_replicate. lia.
  - cbn [set_x2nTbl x2nTbl]. apply list_lookup_insert_eq.
    rewrite length_replicate. lia.
  - intros i Hi. lia.
Qed.

(** For a non-zero generator every squaring returns. *)
Lemma makePoly_loop_progress (w : Width) (cnt : nat) :
  forall (n : nat) (p : Poly),
    0 < poly p < 2 ^ nBits w -> (1 <= n)%nat ->
    exists p',
      makePoly_loop w (seq n cnt)
                    (xpow w (poly p) (2 ^ (Z.of_nat n - 1))) p
      = Done p'.
Proof.
  induction cnt as [| cnt IH]; intros n p Hg Hn.
  - exists p. reflexivity.
  - cbn [seq makePoly_loop].
    assert (He : 0 <= 2 ^ (Z.of_nat n - 1)) by (apply Z.pow_nonneg; lia).
    rewrite multModP_xpow by (try apply xpow_pos; lia).
    cbn [mbind outcome_bind].
    fold (xpow w (poly p) (2 ^ (Z.of_nat n - 1))).
    rewrite <- xpow_add by lia.
    replace (2 ^ (Z.of_nat n - 1) + 2 ^ (Z.of_nat n - 1))
      with (2 ^ (Z.of_nat (S n) - 1)).
    + apply (IH (S n) (set_x2nTbl p n _)); [exact Hg | lia].
    + replace (Z.of_nat (S n) - 1) with (Z.of_nat n - 1 + 1) by lia.
      rewrite Z.pow_add_r by lia. change (2 ^ 1) with 2. lia.
Qed.

Lemma makePoly_progress (w : Width) (g : Z) :
  0 < g < 2 ^ nBits w -> exists p, makePoly w g = Done p.
Proof.
  intros Hg. unfold makePoly. pose proof (nBits_ge w) as Hw.
  rewrite shl_one by lia.
  set (p0 := set_x2nTbl _ _ _).
  destruct (makePoly_loop_progress w (Z.to_nat (nBits w) - 1) 1 p0)
    as [p' Hp']; [exact Hg | lia |].
  exists p'. rewrite <- Hp'. f_equal.
  change (Z.of_nat 1 - 1) with 0. change (2 ^ 0) with 1.
  rewrite xpow_small by lia. f_equal. lia.
Qed.

(** Entry k of the table of a non-zero generator is x^(2^k). *)
Lemma makePoly_table (w : Width) (g : Z) (p : Poly) :
  0 < g < 2 ^ nBits w -> makePoly w g = Done p ->
  forall k : nat, Z.of_nat k < nBits w ->
    x2nTbl p !! k = Some (xpow w g (2 ^ Z.of_nat k)).
Proof.
  intros Hg Hrun. pose proof (nBits_ge w) as Hw.
  destruct (makePoly_structure w g p Hrun) as (Hp & _ & _ & H0 & Hsq).
  induction k as [| k IH]; intros Hk.
  - rewrite H0. f_equal. change (2 ^ Z.of_nat 0) with 1.
    rewrite xpow_small by lia. f_equal. lia.
  - destruct (Hsq (S k)) as (u & v & Hu & Hv & Huv); [lia |].
    replace (S k - 1)%nat with k in Hu by lia.
    rewrite IH in Hu by lia. injection Hu as <-.
    assert (He : 0 <= 2 ^ Z.of_nat k) by (apply Z.pow_nonneg; lia).
    rewrite <- Hp in Huv at 2.
    rewrite multModP_xpow in Huv by (try apply xpow_pos; lia).
    injection Huv as <-. rewrite Hv. f_equal.
    rewrite Hp. fold (xpow w g (2 ^ Z.of_nat k)).
    rewrite <- xpow_add by lia. f_equal.
    rewrite Nat2Z.inj_succ, Z.pow_succ_r by lia. lia.
Qed.

(* ================================================================== *)
(** * x2NModP *)
(* ================================================================== *)

Lemma x2NModP_loop_eq (w : Width) (p : Poly) (fuel : nat) (n k v : Z) :
  x2NModP_loop w p (S fuel) n k v
  = if n =? 0 then Done v
    else
      v ← (if negb (Z.land n 1 =? 0)
           then t ← index (x2nTbl p) (Z.land k (nBits w - 1));
                multModP w p t v
           else Done v);
      x2NModP_loop w p fuel (Z.shiftr n 1) (uint w (k + 1)) v.
Proof. reflexivity. Qed.

(** The index mask is reduction modulo the width. *)
Lemma land_width_mask (w : Width) (k : Z) :
  Z.land k (nBits w - 1) = k mod nBits w.
Proof.
  destruct w.
  - change (nBits W32 - 1) with (Z.ones 5). now rewrite Z.land_ones.
  - change (nBits W64 - 1) with (Z.ones 6). now rewrite Z.land_ones.
Qed.

Lemma low_bit_test (n : Z) : negb (Z.land n 1 =? 0) = Z.odd n.
Proof. rewrite land_1_odd. now destruct (Z.odd n). Qed.

Lemma shiftr1_half (n : Z) :
  n = 2 * Z.shiftr n 1 + (if Z.odd n then 1 else 0).
Proof.
  rewrite Z.shiftr_div_pow2 by lia. change (2 ^ 1) with 2.
  rewrite <- Zmod_odd. apply Z.div_mod. lia.
Qed.

(** While the table is not indexed past its end, the loop multiplies the
    accumulator by x^(n * 2^k). *)
Lemma x2NModP_loop_xpow (w : Width) (g : Z) (p : Poly) :
  0 < g < 2 ^ nBits w -> makePoly w g = Done p ->
  forall (f : nat) (n k j : Z),
    0 <= n < 2 ^ Z.of_nat f -> 0 <= k -> n < 2 ^ (nBits w - k) -> 0 <= j ->
    x2NModP_loop w p (S f) n k (xpow w g j)
    = Done (xpow w g (j + n * 2 ^ k)).
Proof.
  intros Hg Hrun. pose proof (nBits_ge w) as Hw.
  pose proof (makePoly_table w g p Hg Hrun) as Htbl.
  destruct (makePoly_structure w g p Hrun) as (Hp & _).
  induction f as [| f IH]; intros n k j Hn Hk Hnk Hj;
    rewrite x2NModP_loop_eq.
  - change (2 ^ Z.of_nat 0) with 1 in Hn. assert (n = 0) as -> by lia.
    simpl. do 2 f_equal. lia.
  - destruct (Z.eqb_spec n 0) as [-> | Hn0]; [do 2 f_equal; lia |].
    assert (Hkw : k < nBits w).
    { destruct (Z_lt_le_dec k (nBits w)) as [? | Hge]; [assumption |].
      assert (2 ^ (nBits w - k) <= 1); [| lia].
      destruct (Z.eq_dec k (nBits w)) as [-> | ?].
      - rewrite Z.sub_diag. reflexivity.
      - rewrite Z.pow_neg_r by lia. lia. }
    pose proof (shiftr1_half n) as Hhalf.
    assert (Hs : 0 <= Z.shiftr n 1) by (apply Z.shiftr_nonneg; lia).
    assert (He : 0 <= 2 ^ k) by (apply Z.pow_nonneg; lia).
    assert (Hk1 : 2 ^ (k + 1) = 2 * 2 ^ k)
      by (rewrite Z.pow_add_r by lia; change (2 ^ 1) with 2; lia).
    assert (Hnk1 : 2 ^ (nBits w - k) = 2 * 2 ^ (nBits w - (k + 1))).
    { replace (nBits w - k) with (nBits w - (k + 1) + 1) by lia.
      rewrite Z.pow_add_r by lia. change (2 ^ 1) with 2. lia. }
    rewrite Nat2Z.inj_succ, Z.pow_succ_r in Hn by lia.
    rewrite low_bit_test, land_width_mask, Z.mod_small by lia.
    rewrite uint_small
      by (pose proof (width_above_64 w); pose proof (nBits_le w); lia).
    destruct (Z.odd n) eqn:Eo.
    + unfold index. rewrite (Htbl (Z.to_nat k)) by lia.
      rewrite Z2Nat.id by lia. cbn [mbind outcome_bind].
      rewrite <- Hp at 2.
      rewrite multModP_xpow by (try apply xpow_pos; lia).
      rewrite Hp, <- xpow_add by lia. cbn [mbind outcome_bind].
      rewrite IH by lia. do 2 f_equal. nia.
    + cbn [mbind outcome_bind]. rewrite IH by lia. do 2 f_equal. nia.
Qed.

(** For a block shorter than 2^(nBits-3) bytes, [x2NModP n 3] is
    x^(8n). *)
Lemma x2NModP_xpow (w : Width) (g : Z) (p : Poly) (n : Z) :
  0 < g < 2 ^ nBits w -> makePoly w g = Done p ->
  0 <= n < 2 ^ (nBits w - 3) ->
  x2NModP w p n 3 = Done (xpow w g (8 * n)).
Proof.
  intros Hg Hrun Hn. pose proof (nBits_ge w) as Hw.
  unfold x2NModP, x2NModP_fuel. rewrite shl_top.
  change (one w) with (xpow w g 0).
  assert (H63 : 2 ^ (nBits w - 3) <= 2 ^ Z.of_nat 63)
    by (apply Z.pow_le_mono_r; pose proof (nBits_le w); lia).
  rewrite (x2NModP_loop_xpow w g p Hg Hrun 63) by lia.
  do 2 f_equal. change (2 ^ 3) with 8. lia.
Qed.

(** [Combine] past its two guards. *)
Lemma Combine_xpow (w : Width) (g : Z) (p : Poly) (prev next n : Z) :
  0 < g < 2 ^ nBits w -> makePoly w g = Done p ->
  0 < prev < 2 ^ nBits w -> 0 < n < 2 ^ (nBits w - 3) ->
  Combine w p prev next n = Done (Z.lxor (mulXn g (8 * n) prev) next).
Proof.
  intros Hg Hrun Hprev Hn. unfold Combine.
  destruct (Z.eqb_spec prev 0) as [? | _]; [lia |].
  destruct (Z.leb_spec n 0) as [? | _]; [lia |].
  rewrite (x2NModP_xpow w g p) by (auto; lia).
  cbn [mbind outcome_bind].
  destruct (makePoly_structure w g p Hrun) as (Hp & _).
  rewrite <- Hp at 1. rewrite multModP_xpow by lia.
  rewrite Hp. reflexivity.
Qed.

(* ================================================================== *)
(** * The byte-table update *)
(* ================================================================== *)

Lemma round_mulX (g c : Z) : std.round g c = mulX g c.
Proof.
  unfold std.round, mulX. rewrite land_1_odd.
  destruct (Z.odd c); reflexivity.
Qed.

Lemma entry_mulXn (g i : Z) : std.entry g i = mulXn g 8 i.
Proof.
  unfold std.entry, mulXn. change (Z.to_N 8) with 8%N.
  unfold N.iter. cbn [Nat.iter nat_rect Pos.iter].
  rewrite !round_mulX. reflexivity.
Qed.

Lemma MakeTable_lookup (g i : Z) :
  0 <= i < 256 -> std.MakeTable g !!! Z.to_nat i = mulXn g 8 i.
Proof.
  intros Hi. apply list_lookup_total_correct. unfold std.MakeTable.
  rewrite list_lookup_fmap, lookup_seq_lt by lia. simpl.
  rewrite Z2Nat.id by lia. f_equal. apply entry_mulXn.
Qed.

(** A value with i zero bits at the bottom is only shifted by x^i. *)
Lemma mulXn_shiftl (g i h : Z) :
  0 <= i -> mulXn g i (Z.shiftl h i) = h.
Proof.
  intros Hi. pattern i. apply natlike_ind; [| | exact Hi].
  - rewrite mulXn_0. apply Z.shiftl_0_r.
  - intros j Hj IH. unfold Z.succ. rewrite mulXn_succ_r by lia.
    rewrite mulX_even.
    + rewrite Z.shiftr_shiftl_l by lia.
      replace (j + 1 - 1) with j by lia. exact IH.
    + rewrite <- Z.bit0_odd. apply Z.shiftl_spec_low. lia.
Qed.

Lemma split_low_high (c i : Z) :
  0 <= i -> c = Z.lxor (c mod 2 ^ i) (Z.shiftl (Z.shiftr c i) i).
Proof.
  intros Hi. apply Z.bits_inj'. intros n Hn. rewrite Z.lxor_spec.
  destruct (Z_lt_le_dec n i) as [Hlt | Hge].
  - rewrite Z.mod_pow2_bits_low, Z.shiftl_spec_low by lia.
    now rewrite xorb_false_r.
  - rewrite Z.mod_pow2_bits_high, Z.shiftl_spec, Z.shiftr_spec by lia.
    rewrite xorb_false_l. f_equal. lia.
Qed.

Lemma mulXn_split (g i c : Z) :
  0 <= i ->
  mulXn g i c = Z.lxor (mulXn g i (c mod 2 ^ i)) (Z.shiftr c i).
Proof.
  intros Hi. rewrite (split_low_high c i Hi) at 1.
  rewrite mulXn_lxor, mulXn_shiftl by lia. reflexivity.
Qed.

Lemma byteZ_range (v : byte) : 0 <= byteZ v < 256.
Proof. unfold byteZ. pose proof (Byte.to_N_bounded v). lia. Qed.

(** One table look-up is eight multiplications by x. *)
Lemma table_step (g c v : Z) :
  0 <= v < 256 ->
  Z.lxor (std.MakeTable g !!! Z.to_nat (Z.lxor (Z.land c 255) v))
         (Z.shiftr c 8)
  = mulXn g 8 (Z.lxor c v).
Proof.
  intros Hv.
  assert (Hlow : Z.lxor (Z.land c 255) v = Z.lxor c v mod 2 ^ 8).
  { change 255 with (Z.ones 8). rewrite Z.land_ones by lia.
    apply Z.bits_inj'. intros n Hn. rewrite Z.lxor_spec.
    destruct (Z_lt_le_dec n 8) as [Hlt | Hge].
    - rewrite !Z.mod_pow2_bits_low by lia. now rewrite Z.lxor_spec.
    - rewrite !Z.mod_pow2_bits_high by lia.
      rewrite <- (Z.mod_small v (2 ^ 8)) by (change (2 ^ 8) with 256; lia).
      now rewrite Z.mod_pow2_bits_high by lia. }
  assert (Hhigh : Z.shiftr c 8 = Z.shiftr (Z.lxor c v) 8).
  { rewrite Z.shiftr_lxor. rewrite (Z.shiftr_div_pow2 v) by lia.
    change (2 ^ 8) with 256. rewrite Z.div_small by lia.
    now rewrite Z.lxor_0_r. }
  rewrite Hlow, Hhigh, MakeTable_lookup.
  - symmetry. apply mulXn_split. lia.
  - change (2 ^ 8) with 256. apply Z.mod_pos_bound. lia.
Qed.

Lemma Update_raw (w : Width) (g s : Z) (data : list byte) :
  std.Update w s (std.MakeTable g) data
  = lnot w (rawUpdate g (lnot w s) data).
Proof.
  unfold std.Update, rawUpdate. f_equal. generalize (lnot w s).
  induction data as [| v data IH]; intros c; [reflexivity |].
  cbn [fold_left]. rewrite table_step by apply byteZ_range. apply IH.
Qed.

Lemma len_cons (v : byte) (data : list byte) : len (v :: data) = len data + 1.
Proof. unfold len. cbn [length]. lia. Qed.

Lemma len_nonneg (data : list byte) : 0 <= len data.
Proof. unfold len. lia. Qed.

(** The raw update is affine: a change of the start value comes out
    multiplied by x^(8 * len). *)
Lemma rawUpdate_lxor (g : Z) (data : list byte) :
  forall c d,
    rawUpdate g (Z.lxor c d) data
    = Z.lxor (rawUpdate g c data) (mulXn g (8 * len data) d).
Proof.
  induction data as [| v data IH]; intros c d.
  - reflexivity.
  - unfold rawUpdate in *. cbn [fold_left].
    replace (Z.lxor (Z.lxor c d) (byteZ v))
      with (Z.lxor (Z.lxor c (byteZ v)) d) by xor_bits.
    rewrite mulXn_lxor, IH. f_equal.
    rewrite len_cons. pose proof (len_nonneg data).
    replace (8 * (len data + 1)) with (8 * len data + 8) by lia.
    now rewrite mulXn_add by lia.
Qed.

(** [Update] from a sum s is [Checksum] plus s times x^(8 * len). *)
Lemma Update_shift (w : Width) (p : Poly) (g s : Z) (data : list byte) :
  stdlib p = std.MakeTable g ->
  Update w p s data
  = Z.lxor (mulXn g (8 * len data) s) (Checksum w p data).
Proof.
  intros Hs. unfold Update, Checksum. rewrite Hs, !Update_raw.
  unfold lnot. rewrite Z.lxor_0_l.
  rewrite (Z.lxor_comm s), rawUpdate_lxor. xor_bits.
Qed.

Lemma lnot_involutive (w : Width) (x : Z) : lnot w (lnot w x) = x.
Proof. unfold lnot. xor_bits. Qed.

Lemma Update_nil (w : Width) (p : Poly) (s : Z) : Update w p s [] = s.
Proof. unfold Update, std.Update. cbn [fold_left]. apply lnot_involutive. Qed.

Lemma Update_app (w : Width) (p : Poly) (s : Z) (a b : list byte) :
  Update w p s (a ++ b) = Update w p (Update w p s a) b.
Proof.
  unfold Update, std.Update. rewrite fold_left_app, lnot_involutive.
  reflexivity.
Qed.

Lemma Checksum_app (w : Width) (p : Poly) (a b : list byte) :
  Checksum w p (a ++ b) = Update w p (Checksum w p a) b.
Proof. apply Update_app. Qed.

Lemma lnot_range (w : Width) (x : Z) :
  0 <= x < 2 ^ nBits w -> 0 <= lnot w x < 2 ^ nBits w.
Proof.
  intros Hx. pose proof (nBits_ge w). apply lxor_range; [lia | exact Hx |].
  rewrite Z.ones_equiv. pose proof (one_range w). lia.
Qed.

Lemma rawUpdate_range (w : Width) (g : Z) (data : list byte) :
  0 <= g < 2 ^ nBits w ->
  forall c, 0 <= c < 2 ^ nBits w -> 0 <= rawUpdate g c data < 2 ^ nBits w.
Proof.
  intros Hg. pose proof (nBits_ge w) as Hw.
  induction data as [| v data IH]; intros c Hc; [exact Hc |].
  unfold rawUpdate in *. cbn [fold_left]. apply IH.
  apply mulXn_range; [lia | exact Hg |].
  apply lxor_range; [lia | exact Hc |].
  pose proof (byteZ_range v). pose proof (width_above_64 w).
  assert (256 <= 2 ^ nBits w); [| lia].
  change 256 with (2 ^ 8). apply Z.pow_le_mono_r; lia.
Qed.

Lemma Update_range (w : Width) (p : Poly) (g s : Z) (data : list byte) :
  0 <= g < 2 ^ nBits w -> stdlib p = std.MakeTable g ->
  0 <= s < 2 ^ nBits w ->
  0 <= Update w p s data < 2 ^ nBits w.
Proof.
  intros Hg Hs Hr. unfold Update. rewrite Hs, Update_raw.
  apply lnot_range, rawUpdate_range; [exact Hg |]. now apply lnot_range.
Qed.

Lemma Checksum_range (w : Width) (p : Poly) (g : Z) (data : list byte) :
  0 <= g < 2 ^ nBits w -> stdlib p = std.MakeTable g ->
  0 <= Checksum w p data < 2 ^ nBits w.
Proof.
  intros Hg Hs. apply (Update_range w p g 0 data Hg Hs).
  pose proof (one_range w). lia.
Qed.

(* ================================================================== *)
(** * Combine and concatenation *)
(* ================================================================== *)

Lemma lxor_cancel_r (a b c : Z) : Z.lxor a c = Z.lxor b c -> a = b.
Proof.
  intros H. apply (f_equal (fun x => Z.lxor x c)) in H.
  now rewrite !Z.lxor_assoc, Z.lxor_nilpotent, !Z.lxor_0_r in H.
Qed.

Lemma len_zero_nil (b : list byte) : len b <= 0 -> b = [].
Proof. unfold len. destruct b; [reflexivity | cbn [length]; lia]. Qed.

(** X1.  For every non-zero generator and every second block shorter than
    2^(nBits-3) bytes, [Combine] of the two checksums is the checksum of
    the concatenation. *)
Theorem Combine_Checksum_concat (w : Width) (g : Z) (p : Poly)
        (a b : list byte) :
  0 < g < 2 ^ nBits w -> makePoly w g = Done p ->
  len b < 2 ^ (nBits w - 3) ->
  Combine w p (Checksum w p a) (Checksum w p b) (len b)
  = Done (Checksum w p (a ++ b))
  /\ Combine w p (Checksum w p a) (Update w p 0 b) (len b)
     = Done (Update w p (Checksum w p a) b).
Proof.
  intros Hg Hrun Hlen.
  destruct (makePoly_structure w g p Hrun) as (Hp & Hs & _).
  rewrite Checksum_app. change (Update w p 0 b) with (Checksum w p b).
  assert (Combine w p (Checksum w p a) (Checksum w p b) (len b)
          = Done (Update w p (Checksum w p a) b)); [| now split].
  rewrite (Update_shift w p g) by exact Hs.
  pose proof (Checksum_range w p g a ltac:(lia) Hs) as Hr.
  pose proof (len_nonneg b) as Hb.
  destruct (Z.eq_dec (Checksum w p a) 0) as [-> | Hne].
  - rewrite mulXn_zero, Z.lxor_0_l. reflexivity.
  - destruct (Z.eq_dec (len b) 0) as [H0 | Hn0].
    + rewrite (len_zero_nil b) by lia. unfold Combine.
      destruct (Z.eqb_spec (Checksum w p a) 0) as [? | _]; [lia |].
      change (len []) with 0. cbn [Z.leb Z.compare].
      change (8 * 0) with 0. rewrite mulXn_0.
      change (Checksum w p []) with (Update w p 0 []).
      now rewrite Update_nil, Z.lxor_0_r.
    + apply Combine_xpow; auto; lia.
Qed.

(** ** Past the end of the table *)

Lemma Done_inj {A : Type} (a b : A) : Done a = Done b -> a = b.
Proof. intros H. now injection H. Qed.


(** The square of the last table entry is x^(2^nBits); the loop of
    [x2NModP] takes entry 0, which is x, in its place. *)
Lemma xpow_wrap_square (w : Width) (g : Z) (p : Poly) (t : Z) :
  0 < g < 2 ^ nBits w -> makePoly w g = Done p ->
  x2nTbl p !! Z.to_nat (nBits w - 1) = Some t ->
  multModP w p t t = Done (xpow w g (2 ^ nBits w)).
Proof.
  intros Hg Hrun Ht. pose proof (nBits_ge w) as Hw.
  destruct (makePoly_structure w g p Hrun) as (Hp & _).
  rewrite (makePoly_table w g p Hg Hrun) in Ht by lia.
  injection Ht as <-. rewrite Z2Nat.id by lia.
  assert (He : 0 <= 2 ^ (nBits w - 1)) by (apply Z.pow_nonneg; lia).
  rewrite <- Hp at 2. rewrite multModP_xpow by (try apply xpow_pos; lia).
  rewrite Hp, <- xpow_add by lia. do 2 f_equal.
  replace (nBits w) with (nBits w - 1 + 1) at 3 by lia.
  rewrite Z.pow_add_r by lia. change (2 ^ 1) with 2. lia.
Qed.

(** The checksum of a block followed by 2^29 bytes, under the
    Castagnoli polynomial, is not what [Combine] returns. *)
Lemma Combine_Castagnoli_len (p : Poly) (b : list byte) :
  makePoly W32 std.Castagnoli = Done p ->
  len b = 2 ^ 29 ->
  Combine W32 p (Checksum W32 p [x00]) (Checksum W32 p b) (len b)
  <> Done (Checksum W32 p ([x00] ++ b)).
Proof.
  intros Hrun Hb.
  assert (Hg : 0 < std.Castagnoli < 2 ^ nBits W32) by (vm_compute; auto).
  assert (Hc : exists q,
             makePoly W32 std.Castagnoli = Done q
             /\ Checksum W32 q [x00] = 1383945041
             /\ x2NModP W32 q (2 ^ 29) 3 = Done 1073741824
             /\ multModP W32 q 1383945041 1073741824 = Done 2882048720
             /\ x2nTbl q !! Z.to_nat (nBits W32 - 1) = Some 1073741824
             /\ multModP W32 q 1073741824 1073741824 = Done 536870912
             /\ multModP W32 q 1383945041 536870912 = Done 1441024360).
  { eexists. split; [vm_compute; reflexivity |].
    repeat split; vm_compute; reflexivity. }
  destruct Hc as (q & Hq & HcA & Hx & Hm1 & Ht & Hsq & Hm2).
  rewrite Hrun in Hq. injection Hq as <-.
  destruct (makePoly_structure W32 _ p Hrun) as (Hp & Hs & _).
  (* what Combine returns *)
  assert (Hcomb : Combine W32 p (Checksum W32 p [x00]) (Checksum W32 p b)
                          (len b)
                  = Done (Z.lxor 2882048720 (Checksum W32 p b))).
  { rewrite Hb, HcA. unfold Combine.
    change (1383945041 =? 0) with false. change (2 ^ 29 <=? 0) with false.
    cbv iota. rewrite Hx. cbn [mbind outcome_bind]. rewrite Hm1.
    reflexivity. }
  (* what the checksum of the whole is *)
  remember (8 * len b) as e eqn:He.
  assert (Hw : xpow W32 std.Castagnoli e = 536870912).
  { pose proof (xpow_wrap_square W32 _ p _ Hg Hrun Ht) as Hws.
    rewrite Hsq in Hws. apply Done_inj in Hws.
    rewrite He, Hb. symmetry. exact Hws. }
  assert (Hsum : Checksum W32 p ([x00] ++ b)
                 = Z.lxor 1441024360 (Checksum W32 p b)).
  { rewrite Checksum_app, (Update_shift W32 p std.Castagnoli) by exact Hs.
    rewrite <- He, HcA. f_equal.
    assert (He0 : 0 <= e) by (pose proof (len_nonneg b); lia).
    pose proof (multModP_xpow W32 p 1383945041 e ltac:(vm_compute; auto) He0)
      as Hmx.
    rewrite Hp, Hw, Hm2 in Hmx. now apply Done_inj in Hmx. }
  rewrite Hcomb, Hsum. intros H. apply Done_inj in H.
  apply lxor_cancel_r in H. discriminate H.
Qed.

Lemma len_zero_block (n : Z) : 0 <= n -> len (zero_block n) = n.
Proof.
  intros Hn. unfold len, zero_block. rewrite length_replicate.
  now apply Z2Nat.id.
Qed.

(* ================================================================== *)
(** * Termination *)
(* ================================================================== *)

(** The loop of [multModP] never needs more than its nBits + 1 tests. *)
Lemma multModP_loop_no_spin (w : Width) (p : Poly) (fuel : nat) :
  forall (a m v b : Z),
    0 <= m < 2 ^ Z.of_nat fuel ->
    multModP_loop w p (S fuel) a m v b <> Spinning.
Proof.
  induction fuel as [| fuel IH]; intros a m v b Hm;
    rewrite multModP_loop_eq;
    (destruct (Z.eqb_spec m 0) as [-> | Hne]; [discriminate |]).
  - change (2 ^ Z.of_nat 0) with 1 in Hm. lia.
  - assert (Hs : 0 <= Z.shiftr m 1 < 2 ^ Z.of_nat fuel).
    { rewrite Z.shiftr_div_pow2 by lia. change (2 ^ 1) with 2.
      rewrite Nat2Z.inj_succ, Z.pow_succ_r in Hm by lia.
      split; [apply Z.div_pos; lia |].
      apply Z.div_lt_upper_bound; lia. }
    destruct (negb (Z.land a m =? 0)); [| now apply IH].
    destruct (Z.land a (uint w (m - 1)) =? 0); [discriminate |].
    now apply IH.
Qed.

Lemma multModP_no_spin (w : Width) (p : Poly) (a b : Z) :
  multModP w p a b <> Spinning.
Proof.
  unfold multModP. apply multModP_loop_no_spin.
  rewrite shl_top. pose proof (one_range w). pose proof (nBits_ge w).
  rewrite Z2Nat.id by lia. lia.
Qed.

Lemma index_no_spin (tbl : list Z) (i : Z) : index tbl i <> Spinning.
Proof. unfold index. destruct (tbl !! Z.to_nat i); discriminate. Qed.

Lemma shiftr1_lt (n : Z) : 0 < n -> 0 <= Z.shiftr n 1 < n.
Proof.
  intros Hn. rewrite Z.shiftr_div_pow2 by lia. change (2 ^ 1) with 2.
  split; [apply Z.div_pos; lia | apply Z.div_lt; lia].
Qed.

(** One more unit of fuel than n has bits is enough. *)
Lemma x2NModP_loop_fuel (w : Width) (p : Poly) (f : nat) :
  forall (n k v : Z),
    0 <= n < 2 ^ Z.of_nat f ->
    x2NModP_loop w p (S f) n k v <> Spinning.
Proof.
  induction f as [| f IH]; intros n k v Hn; rewrite x2NModP_loop_eq;
    (destruct (Z.eqb_spec n 0) as [-> | Hne]; [discriminate |]).
  - change (2 ^ Z.of_nat 0) with 1 in Hn. lia.
  - assert (Hs : 0 <= Z.shiftr n 1 < 2 ^ Z.of_nat f).
    { rewrite Z.shiftr_div_pow2 by lia. change (2 ^ 1) with 2.
      rewrite Nat2Z.inj_succ, Z.pow_succ_r in Hn by lia.
      split; [apply Z.div_pos; lia |].
      apply Z.div_lt_upper_bound; lia. }
    destruct (negb (Z.land n 1 =? 0)).
    + destruct (index (x2nTbl p) (Z.land k (nBits w - 1))) as [t | |] eqn:Ei;
        cbn [mbind outcome_bind]; [| discriminate |].
      * destruct (multModP w p t v) as [v' | |] eqn:Em;
          cbn [mbind outcome_bind]; [now apply IH | discriminate |].
        now apply multModP_no_spin in Em.
      * now apply index_no_spin in Ei.
    + cbn [mbind outcome_bind]. now apply IH.
Qed.

(** A negative n stays negative under the arithmetic shift: the loop
    never reaches its exit. *)
Lemma x2NModP_loop_negative (w : Width) (p : Poly) (fuel : nat) :
  forall (n k v r : Z),
    n < 0 -> x2NModP_loop w p fuel n k v <> Done r.
Proof.
  induction fuel as [| fuel IH]; intros n k v r Hn; [discriminate |].
  rewrite x2NModP_loop_eq.
  destruct (Z.eqb_spec n 0) as [-> | Hne]; [lia |].
  assert (Hs : Z.shiftr n 1 < 0) by (apply Z.shiftr_neg; lia).
  destruct (if negb (Z.land n 1 =? 0)
            then t ← index (x2nTbl p) (Z.land k (nBits w - 1));
                 multModP w p t v
            else Done v) as [v' | |];
    cbn [mbind outcome_bind]; [now apply IH | discriminate | discriminate].
Qed.

Lemma x2NModP_no_spin (w : Width) (p : Poly) (n k : Z) :
  0 <= n < 2 ^ 63 -> x2NModP w p n k <> Spinning.
Proof. intros Hn. unfold x2NModP, x2NModP_fuel. now apply x2NModP_loop_fuel. Qed.

Lemma Combine_no_spin (w : Width) (p : Poly) (prev next n : Z) :
  n < 2 ^ 63 -> Combine w p prev next n <> Spinning.
Proof.
  intros Hn. unfold Combine.
  destruct (prev =? 0); [discriminate |].
  destruct (Z.leb_spec n 0) as [? | Hpos]; [discriminate |].
  destruct (x2NModP w p n 3) as [x | |] eqn:Ex;
    cbn [mbind outcome_bind]; [| discriminate |].
  - destruct (multModP w p prev x) as [m | |] eqn:Em;
      cbn [mbind outcome_bind]; [discriminate | discriminate |].
    now apply multModP_no_spin in Em.
  - apply x2NModP_no_spin in Ex; [contradiction | lia].
Qed.

(* ================================================================== *)
(** * x2NModP, bit by bit *)
(* ================================================================== *)

Lemma mod_width (w : Width) (k : Z) :
  (k mod 2 ^ nBits w) mod nBits w = k mod nBits w.
Proof.
  apply Z.mod_mod_divide.
  destruct w; [exists (2 ^ 27) | exists (2 ^ 58)]; reflexivity.
Qed.

Lemma uint_succ (w : Width) (k : Z) :
  uint w (k mod 2 ^ nBits w + 1) = (k + 1) mod 2 ^ nBits w.
Proof.
  unfold uint. apply Z.add_mod_idemp_l.
  pose proof (one_range w). lia.
Qed.

(** The index that the loop masks out of its wrapping counter is the
    unbounded count modulo the width. *)
Lemma index_mask (w : Width) (tbl : list Z) (k : Z) :
  index tbl (Z.land (k mod 2 ^ nBits w) (nBits w - 1))
  = index tbl (k mod nBits w).
Proof. now rewrite land_width_mask, mod_width. Qed.

Lemma x2NModP_loop_fold (w : Width) (p : Poly) (q : positive) :
  forall (f : nat) (k v : Z),
    Z.pos q < 2 ^ Z.of_nat f ->
    x2NModP_loop w p (S f) (Z.pos q) (k mod 2 ^ nBits w) v
    = x2NModP_fold w p (bits_pos q) k v.
Proof.
  induction q as [q IH | q IH |]; intros f k v Hq;
    rewrite x2NModP_loop_eq; cbn [bits_pos x2NModP_fold];
    rewrite low_bit_test, index_mask, uint_succ.
  - change (Z.pos q~1 =? 0) with false. cbv iota.
    change (Z.odd (Z.pos q~1)) with true. cbv iota.
    change (Z.shiftr (Z.pos q~1) 1) with (Z.pos q).
    destruct f as [| f]; [change (2 ^ Z.of_nat 0) with 1 in Hq; lia |].
    rewrite Nat2Z.inj_succ, Z.pow_succ_r in Hq by lia.
    destruct (t ← index (x2nTbl p) (k mod nBits w); multModP w p t v);
      cbn [mbind outcome_bind]; try reflexivity.
    apply IH. lia.
  - change (Z.pos q~0 =? 0) with false. cbv iota.
    change (Z.odd (Z.pos q~0)) with false. cbv iota.
    change (Z.shiftr (Z.pos q~0) 1) with (Z.pos q).
    destruct f as [| f]; [change (2 ^ Z.of_nat 0) with 1 in Hq; lia |].
    rewrite Nat2Z.inj_succ, Z.pow_succ_r in Hq by lia.
    cbn [mbind outcome_bind]. apply IH. lia.
  - change (1 =? 0) with false. cbv iota.
    change (Z.odd 1) with true. cbv iota.
    change (Z.shiftr 1 1) with 0.
    destruct f as [| f]; [change (2 ^ Z.of_nat 0) with 1 in Hq; lia |].
    destruct (t ← index (x2nTbl p) (k mod nBits w); multModP w p t v);
      cbn [mbind outcome_bind]; reflexivity.
Qed.

(** [bits_of] lists the bits that [Z.testbit] reads. *)
Lemma bits_pos_testbit (q : positive) :
  forall i : nat,
    nth i (bits_pos q) false = Z.testbit (Z.pos q) (Z.of_nat i).
Proof.
  induction q as [q IH | q IH |]; intros [| i]; cbn [bits_pos nth];
    try reflexivity.
  - rewrite IH, Nat2Z.inj_succ, Pos2Z.inj_xI.
    symmetry. apply Z.testbit_odd_succ. lia.
  - rewrite IH, Nat2Z.inj_succ, Pos2Z.inj_xO.
    symmetry. apply Z.testbit_even_succ. lia.
  - destruct i; reflexivity.
Qed.

Lemma bits_of_testbit (n : Z) (i : nat) :
  0 <= n -> nth i (bits_of n) false = Z.testbit n (Z.of_nat i).
Proof.
  intros Hn. destruct n as [| q | q]; [| apply bits_pos_testbit | lia].
  rewrite Z.bits_0. now destruct i.
Qed.

(* ================================================================== *)
(** * The cells of the well-known polynomials *)
(* ================================================================== *)

Lemma init_globals_ok : globals_ok init_globals.
Proof. repeat split. Qed.

(** [Get] on a cell whose constructor returns: the value is the
    constructor's, the cell holds it afterwards, and a second [Get]
    returns it without constructing. *)
Lemma Get_ok (w : Width) (c : Z) (p : Poly) (v : shared.Val Poly) :
  makePoly w c = Done p -> cell_ok w c v ->
  exists v',
    shared.Get (fun _ => makePoly w c) v = (Done p, v')
    /\ v' = Some p
    /\ forall New, shared.Get New v' = (Done p, v').
Proof.
  intros Hrun Hv. exists (Some p). unfold shared.Get.
  destruct v as [p0 |]; cbn [cell_ok] in Hv.
  - rewrite Hrun in Hv. apply Done_inj in Hv. subst p0. auto.
  - rewrite Hrun. auto.
Qed.

(** The five known polynomials construct. *)
Lemma known_polys_construct :
  (exists p, makePoly W32 std.IEEE = Done p)
  /\ (exists p, makePoly W32 std.Castagnoli = Done p)
  /\ (exists p, makePoly W32 std.Koopman = Done p)
  /\ (exists p, makePoly W64 std.ISO = Done p)
  /\ (exists p, makePoly W64 std.ECMA = Done p).
Proof.
  repeat split; apply makePoly_progress; vm_compute; auto.
Qed.

Lemma makePoly_zero (w : Width) : makePoly w 0 = Panicked.
Proof. destruct w; vm_compute; reflexivity. Qed.

Lemma Known_constructs (w : Width) (c : Z) acc :
  Known w c acc -> exists p, makePoly w c = Done p.
Proof.
  destruct known_polys_construct as (H1 & H2 & H3 & H4 & H5).
  intros []; assumption.
Qed.

Lemma MakePoly_switch (w : Width) (c : Z) acc (g : Globals) :
  Known w c acc -> MakePoly w c g = acc g.
Proof. intros []; reflexivity. Qed.

(** An accessor returns the Poly of its constant, keeps the invariant,
    and leaves a state in which it returns the same Poly again without
    changing anything. *)
Lemma accessor_ok (w : Width) (c : Z) acc (g : Globals) :
  Known w c acc -> globals_ok g ->
  exists p g',
    acc g = (Done p, g') /\ makePoly w c = Done p
    /\ globals_ok g' /\ acc g' = (Done p, g').
Proof.
  intros HK (Hi & Hc & Hk & Hs & He).
  destruct (Known_constructs w c acc HK) as [p Hrun].
  exists p.
  destruct HK.
  - destruct (Get_ok W32 _ p (ieeePoly g) Hrun Hi) as (v' & HG & -> & HG2).
    eexists. unfold IEEE at 1. rewrite HG. split; [reflexivity |].
    split; [exact Hrun |].
    split; [exact (conj Hrun (conj Hc (conj Hk (conj Hs He)))) |].
    unfold IEEE. cbn [ieeePoly castPoly koopPoly isoPoly ecmaPoly].
    now rewrite HG2.
  - destruct (Get_ok W32 _ p (castPoly g) Hrun Hc) as (v' & HG & -> & HG2).
    eexists. unfold Castagnoli at 1. rewrite HG. split; [reflexivity |].
    split; [exact Hrun |].
    split; [exact (conj Hi (conj Hrun (conj Hk (conj Hs He)))) |].
    unfold Castagnoli. cbn [ieeePoly castPoly koopPoly isoPoly ecmaPoly].
    now rewrite HG2.
  - destruct (Get_ok W32 _ p (koopPoly g) Hrun Hk) as (v' & HG & -> & HG2).
    eexists. unfold Koopman at 1. rewrite HG. split; [reflexivity |].
    split; [exact Hrun |].
    split; [exact (conj Hi (conj Hc (conj Hrun (conj Hs He)))) |].
    unfold Koopman. cbn [ieeePoly castPoly koopPoly isoPoly ecmaPoly].
    now rewrite HG2.
  - destruct (Get_ok W64 _ p (isoPoly g) Hrun Hs) as (v' & HG & -> & HG2).
    eexists. unfold ISO at 1. rewrite HG. split; [reflexivity |].
    split; [exact Hrun |].
    split; [exact (conj Hi (conj Hc (conj Hk (conj Hrun He)))) |].
    unfold ISO. cbn [ieeePoly castPoly koopPoly isoPoly ecmaPoly].
    now rewrite HG2.
  - destruct (Get_ok W64 _ p (ecmaPoly g) Hrun He) as (v' & HG & -> & HG2).
    eexists. unfold ECMA at 1. rewrite HG. split; [reflexivity |].
    split; [exact Hrun |].
    split; [exact (conj Hi (conj Hc (conj Hk (conj Hs Hrun)))) |].
    unfold ECMA. cbn [ieeePoly castPoly koopPoly isoPoly ecmaPoly].
    now rewrite HG2.
Qed.

(* ================================================================== *)
(** * MakePoly, the accessors and Get *)
(* ================================================================== *)

(** X15.  Once a cell holds a value, [Get] returns it and leaves the cell
    alone, whatever the constructor would return now: the constructor
    runs at most once. *)
Theorem Get_once (T : Type) (New New' : unit -> outcome T)
        (v v' : shared.Val T) (x : T) :
  shared.Get New v = (Done x, v') ->
  v' = Some x /\ shared.Get New' v' = (Done x, v').
Proof.
  unfold shared.Get. intros H.
  destruct v as [y |].
  - injection H as -> <-. auto.
  - destruct (New ()) as [y | |]; try discriminate H.
    injection H as -> <-. auto.
Qed.

Lemma Get_once_witness :
  shared.Get (fun _ => Done 3) (Some 3) = (Done 3, Some 3)
  /\ shared.Get (fun _ => @Panicked Z) (Some 3) = (Done 3, Some 3).
Proof.
  split; [reflexivity |].
  apply (Get_once Z (fun _ => Done 3) (fun _ => Panicked) None (Some 3) 3).
  reflexivity.
Defined.

(** A panic of the constructor leaves through [Get], and a value is
    returned only if the cell held it or the constructor returned it. *)
Theorem Get_result (T : Type) (New : unit -> outcome T)
        (v : shared.Val T) :
  (v = None -> New () = Panicked ->
   shared.Get New v = (Panicked, None))
  /\ (forall x v', shared.Get New v = (Done x, v') ->
                   v = Some x \/ (v = None /\ New () = Done x)).
Proof.
  unfold shared.Get. split.
  - intros -> ->. reflexivity.
  - intros x v' H. destruct v as [y |].
    + injection H as -> _. auto.
    + destruct (New ()) as [y | |]; try discriminate H.
      injection H as -> _. auto.
Qed.

Lemma Get_result_witness :
  shared.Get (fun _ => @Panicked Z) None = (Panicked, None).
Proof.
  apply (Get_result Z (fun _ => Panicked) None); reflexivity.
Defined.

(** X16.  MakePoly of a known constant is the accessor of that constant: it
    returns the Poly that makePoly builds for the constant, whose
    Polynomial is the constant; the package state stays well-formed, and
    a second call returns the same Poly and changes nothing. *)
Theorem MakePoly_known (w : Width) (c : Z) acc (g : Globals) :
  Known w c acc -> globals_ok g ->
  MakePoly w c g = acc g
  /\ exists p g',
      MakePoly w c g = (Done p, g')
      /\ makePoly w c = Done p /\ Polynomial p = c
      /\ globals_ok g'
      /\ MakePoly w c g' = (Done p, g').
Proof.
  intros HK Hg. split; [now apply MakePoly_switch |].
  destruct (accessor_ok w c acc g HK Hg) as (p & g' & Ha & Hrun & Hg' & Ha').
  exists p, g'. rewrite !(MakePoly_switch w c acc) by exact HK.
  destruct (makePoly_structure w c p Hrun) as (Hp & _).
  auto.
Qed.

Lemma MakePoly_known_witness :
  MakePoly W32 std.Castagnoli init_globals = Castagnoli init_globals
  /\ exists p g',
      MakePoly W32 std.Castagnoli init_globals = (Done p, g')
      /\ makePoly W32 std.Castagnoli = Done p
      /\ Polynomial p = std.Castagnoli
      /\ globals_ok g'
      /\ MakePoly W32 std.Castagnoli g' = (Done p, g').
Proof.
  apply MakePoly_known; [constructor | apply init_globals_ok].
Defined.

(** X17.  MakePoly of any other non-zero value of the width returns a Poly
    built for that value and leaves the cells alone. *)
Theorem MakePoly_other (w : Width) (c : Z) (g : Globals) :
  known_constant w c = false -> 0 < c < 2 ^ nBits w ->
  exists p,
    MakePoly w c g = (Done p, g)
    /\ makePoly w c = Done p /\ Polynomial p = c
    /\ stdlib p = std.MakeTable c.
Proof.
  intros Hk Hc. destruct (makePoly_progress w c Hc) as [p Hrun].
  destruct (makePoly_structure w c p Hrun) as (Hp & Hs & _).
  exists p. split; [| auto].
  unfold MakePoly, known_constant in *. destruct w.
  - apply orb_false_elim in Hk as [Hk H3].
    apply orb_false_elim in Hk as [H1 H2].
    rewrite H1, H2, H3, Hrun. reflexivity.
  - apply orb_false_elim in Hk as [H1 H2].
    rewrite H1, H2, Hrun. reflexivity.
Qed.

Lemma MakePoly_other_witness :
  exists p,
    MakePoly W64 0x9a6c9329ac4bc9b5 init_globals = (Done p, init_globals)
    /\ makePoly W64 0x9a6c9329ac4bc9b5 = Done p
    /\ Polynomial p = 0x9a6c9329ac4bc9b5
    /\ stdlib p = std.MakeTable 0x9a6c9329ac4bc9b5.
Proof.
  apply MakePoly_other; [reflexivity | cbv [nBits Size]; lia].
Defined.

(* ================================================================== *)
(** * The claims of the specification *)
(* ================================================================== *)

(** C1.  The specification states that Combine of the checksums of A
    and B with the length of B is the checksum of A followed by B, for
    every Poly and all A and B.  Under the Castagnoli polynomial, with A
    one zero byte and B 2^29 zero bytes, [Combine] returns another value:
    bit 29 of the length makes [x2NModP] read entry 0 of the table, which
    is x, where x^(2^32) is needed, and that is x^2 for this polynomial.
    ([Combine_Checksum_concat] is the law for blocks shorter than
    2^(nBits-3) bytes.) *)
Theorem Combine_Castagnoli_large_block :
  exists p,
    makePoly W32 std.Castagnoli = Done p
    /\ Combine W32 p (Checksum W32 p [x00])
               (Checksum W32 p (zero_block (2 ^ 29)))
               (len (zero_block (2 ^ 29)))
       <> Done (Checksum W32 p ([x00] ++ zero_block (2 ^ 29))).
Proof.
  assert (Hg : 0 < std.Castagnoli < 2 ^ nBits W32) by (vm_compute; auto).
  destruct (makePoly_progress W32 std.Castagnoli Hg) as [p Hrun].
  exists p. split; [exact Hrun |].
  apply Combine_Castagnoli_len; [exact Hrun |].
  apply len_zero_block. lia.
Qed.

(** C2, as amended.  For a non-zero previous sum x and a length n <= 0,
    Combine x y n returns x. *)
Theorem Combine_empty_suffix (w : Width) (p : Poly) (x y n : Z) :
  x <> 0 -> n <= 0 -> Combine w p x y n = Done x.
Proof.
  intros Hx Hn. unfold Combine.
  destruct (Z.eqb_spec x 0) as [? | _]; [contradiction |].
  destruct (Z.leb_spec n 0) as [_ | ?]; [reflexivity | lia].
Qed.

Lemma Combine_empty_suffix_witness :
  exists p, makePoly W32 std.IEEE = Done p
            /\ Combine W32 p 5 7 (-1) = Done 5.
Proof.
  eexists. split; [vm_compute; reflexivity |].
  apply Combine_empty_suffix; lia.
Defined.

(** C2, as stated, fails when the previous sum is zero: the first guard
    returns the next sum, whatever the length. *)
Lemma Combine_empty_suffix_cex :
  exists p, makePoly W32 std.IEEE = Done p
            /\ Combine W32 p 0 1 0 = Done 1
            /\ Combine W32 p 0 1 0 <> Done 0.
Proof.
  eexists. split; [vm_compute; reflexivity |].
  split; [reflexivity | discriminate].
Qed.

(** C3, as amended.  Entry 0 of the power table is the seed
    1 << (nBits-2) itself, and entry 1 is multModP(seed, seed). *)
Theorem makePoly_entry0 (w : Width) (g : Z) (p : Poly) :
  makePoly w g = Done p ->
  index (x2nTbl p) 0 = Done (shl w 1 (nBits w - 2))
  /\ exists v,
      index (x2nTbl p) 1 = Done v
      /\ multModP w p (shl w 1 (nBits w - 2)) (shl w 1 (nBits w - 2))
         = Done v.
Proof.
  intros Hrun. pose proof (nBits_ge w) as Hw.
  destruct (makePoly_structure w g p Hrun) as (_ & _ & _ & H0 & Hsq).
  rewrite shl_one by lia. unfold index.
  change (Z.to_nat 0) with 0%nat. change (Z.to_nat 1) with 1%nat.
  rewrite H0. split; [reflexivity |].
  destruct (Hsq 1%nat) as (u & v & Hu & Hv & Huv); [lia |].
  change (1 - 1)%nat with 0%nat in Hu. rewrite H0 in Hu.
  injection Hu as <-. exists v. rewrite Hv. auto.
Qed.

Lemma makePoly_entry0_witness :
  exists p,
    makePoly W32 std.IEEE = Done p
    /\ index (x2nTbl p) 0 = Done (shl W32 1 (nBits W32 - 2))
    /\ exists v,
        index (x2nTbl p) 1 = Done v
        /\ multModP W32 p (shl W32 1 (nBits W32 - 2))
                    (shl W32 1 (nBits W32 - 2))
           = Done v.
Proof.
  eexists. split; [vm_compute; reflexivity |].
  apply (makePoly_entry0 W32 std.IEEE). vm_compute. reflexivity.
Defined.

(** C3, as stated, fails: for the IEEE polynomial entry 0 is 1 << 30
    and multModP(seed, seed) is 1 << 29. *)
Lemma makePoly_entry0_cex :
  exists p,
    makePoly W32 std.IEEE = Done p
    /\ index (x2nTbl p) 0 = Done (2 ^ 30)
    /\ multModP W32 p (shl W32 1 (nBits W32 - 2))
                (shl W32 1 (nBits W32 - 2))
       = Done (2 ^ 29)
    /\ index (x2nTbl p) 0
       <> multModP W32 p (shl W32 1 (nBits W32 - 2))
                   (shl W32 1 (nBits W32 - 2)).
Proof.
  eexists. split; [vm_compute; reflexivity |].
  split; [vm_compute; reflexivity |].
  split; [vm_compute; reflexivity |].
  vm_compute. discriminate.
Qed.

(** C4.  For a non-zero a of the width, and any b, multModP returns from
    inside its loop, within the nBits turns of the loop; the test that
    ends the loop is followed by the panic only. *)
Theorem multModP_early_exit (w : Width) (p : Poly) (a b : Z) :
  0 < a < 2 ^ nBits w ->
  (exists v,
      multModP_loop w p (Z.to_nat (nBits w)) a (shl w 1 (nBits w - 1)) 0 b
      = Done v
      /\ multModP w p a b = Done v)
  /\ forall fuel a' v' b',
      multModP_loop w p (S fuel) a' 0 v' b' = Panicked.
Proof.
  intros Ha. pose proof (nBits_ge w) as Hw. split.
  - exists (mulSum (poly p) (Z.to_nat (nBits w - 1)) a b).
    split; [| now apply multModP_spec].
    rewrite shl_top. unfold one.
    replace (nBits w - 1) with (Z.of_nat (Z.to_nat (nBits w - 1)))
      at 1 by lia.
    rewrite multModP_loop_spec; [now rewrite Z.lxor_0_l | lia | lia |].
    replace (Z.of_nat (Z.to_nat (nBits w - 1)) + 1) with (nBits w) by lia.
    rewrite Z.mod_small; lia.
  - intros fuel a' v' b'. reflexivity.
Qed.

Lemma multModP_early_exit_witness :
  exists p,
    makePoly W32 std.IEEE = Done p
    /\ (exists v,
           multModP_loop W32 p (Z.to_nat (nBits W32)) 6
                         (shl W32 1 (nBits W32 - 1)) 0 9
           = Done v
           /\ multModP W32 p 6 9 = Done v)
    /\ forall fuel a' v' b',
        multModP_loop W32 p (S fuel) a' 0 v' b' = Panicked.
Proof.
  eexists. split; [vm_compute; reflexivity |].
  apply multModP_early_exit. cbv [nBits Size]. lia.
Defined.

(** C5.  x2NModP starts from 1 << (nBits-1) and takes one step per bit
    of n, lowest first, multiplying in the table entry at
    ((k + i) mod nBits) exactly when bit i is set; x2NModP 0 k is
    1 << (nBits-1). *)
Theorem x2NModP_bits (w : Width) (p : Poly) (n k : Z) :
  0 <= n < 2 ^ 63 -> 0 <= k < 2 ^ nBits w ->
  x2NModP w p n k
  = x2NModP_fold w p (bits_of n) k (shl w 1 (nBits w - 1))
  /\ x2NModP w p 0 k = Done (shl w 1 (nBits w - 1)).
Proof.
  intros Hn Hk. split; [| reflexivity].
  destruct n as [| q | q]; [reflexivity | | lia].
  unfold x2NModP, x2NModP_fuel. cbn [bits_of].
  rewrite <- (Z.mod_small k (2 ^ nBits w)) at 1 by lia.
  apply x2NModP_loop_fold. change (Z.of_nat 63) with 63. lia.
Qed.

Lemma x2NModP_bits_witness :
  exists p,
    makePoly W32 std.IEEE = Done p
    /\ x2NModP W32 p 5 3
       = x2NModP_fold W32 p (bits_of 5) 3 (shl W32 1 (nBits W32 - 1))
    /\ x2NModP W32 p 0 3 = Done (shl W32 1 (nBits W32 - 1)).
Proof.
  eexists. split; [vm_compute; reflexivity |].
  apply x2NModP_bits; cbv [nBits Size]; lia.
Defined.

(** C6.  The table of a Poly that makePoly returns has nBits entries,
    and each entry from 1 to nBits-1 is multModP of the entry before
    with itself. *)
Theorem makePoly_squares (w : Width) (g : Z) (p : Poly) :
  makePoly w g = Done p ->
  length (x2nTbl p) = Z.to_nat (nBits w)
  /\ forall i, 1 <= i < nBits w ->
       exists u v,
         index (x2nTbl p) (i - 1) = Done u
         /\ index (x2nTbl p) i = Done v
         /\ multModP w p u u = Done v.
Proof.
  intros Hrun.
  destruct (makePoly_structure w g p Hrun) as (_ & _ & Hl & _ & Hsq).
  split; [exact Hl |]. intros i Hi.
  destruct (Hsq (Z.to_nat i)) as (u & v & Hu & Hv & Huv); [lia |].
  exists u, v. unfold index.
  replace (Z.to_nat (i - 1)) with (Z.to_nat i - 1)%nat by lia.
  rewrite Hu, Hv. auto.
Qed.

Lemma makePoly_squares_witness :
  exists p,
    makePoly W64 std.ECMA = Done p
    /\ length (x2nTbl p) = Z.to_nat (nBits W64)
    /\ forall i, 1 <= i < nBits W64 ->
         exists u v,
           index (x2nTbl p) (i - 1) = Done u
           /\ index (x2nTbl p) i = Done v
           /\ multModP W64 p u u = Done v.
Proof.
  eexists. split; [vm_compute; reflexivity |].
  apply (makePoly_squares W64 std.ECMA). vm_compute. reflexivity.
Defined.

(** C7.  With a zero previous sum Combine returns the next sum, for every
    length. *)
Theorem Combine_zero_prev (w : Width) (p : Poly) (x n : Z) :
  Combine w p 0 x n = Done x.
Proof. reflexivity. Qed.

(** C8.  The specification states that MakePoly of a value that is not a
    known constant returns a Poly of that polynomial.  For the value 0
    it panics: the table reaches 0 after a few squarings and the next
    squaring calls multModP with a zero first argument. *)
Theorem MakePoly_zero_panics (w : Width) (g : Globals) :
  MakePoly w 0 g = (Panicked, g).
Proof.
  destruct w; unfold MakePoly.
  - change (0 =? std.IEEE) with false. change (0 =? std.Castagnoli) with false.
    change (0 =? std.Koopman) with false. cbv iota.
    now rewrite makePoly_zero.
  - change (0 =? std.ISO) with false. change (0 =? std.ECMA) with false.
    cbv iota. now rewrite makePoly_zero.
Qed.

(** C9.  The shift brings a positive n strictly closer to 0, and the loop
    of x2NModP is over after at most 63 shifts of a non-negative int64; a
    negative n never reaches 0, whatever the fuel; Combine returns before
    calling x2NModP when n <= 0, and so never runs on for any int64. *)
Theorem x2NModP_terminates (w : Width) (p : Poly) (n k : Z) :
  (0 < n -> 0 <= Z.shiftr n 1 < n)
  /\ (0 <= n < 2 ^ 63 -> x2NModP w p n k <> Spinning)
  /\ (n < 0 ->
      forall fuel v r, x2NModP_loop w p fuel n k v <> Done r)
  /\ (n <= 0 ->
      forall prev next,
        Combine w p prev next n = Done (if prev =? 0 then next else prev))
  /\ (- 2 ^ 63 <= n < 2 ^ 63 ->
      forall prev next, Combine w p prev next n <> Spinning).
Proof.
  split; [apply shiftr1_lt |].
  split; [apply x2NModP_no_spin |].
  split; [intros Hn fuel v r; now apply x2NModP_loop_negative |].
  split.
  - intros Hn prev next. unfold Combine.
    destruct (prev =? 0); [reflexivity |].
    destruct (Z.leb_spec n 0); [reflexivity | lia].
  - intros Hn prev next. apply Combine_no_spin. lia.
Qed.

Lemma x2NModP_terminates_witness :
  exists p,
    makePoly W32 std.IEEE = Done p
    /\ 0 <= Z.shiftr 5 1 < 5
    /\ x2NModP W32 p 5 3 <> Spinning
    /\ (forall fuel v r, x2NModP_loop W32 p fuel (-1) 3 v <> Done r)
    /\ (forall prev next, Combine W32 p prev next 5 <> Spinning).
Proof.
  eexists. split; [vm_compute; reflexivity |].
  match goal with
  | |- context [x2NModP W32 ?p 5 3] =>
    destruct (x2NModP_terminates W32 p 5 3) as (H1 & H2 & _ & _ & H5);
    destruct (x2NModP_terminates W32 p (-1) 3) as (_ & _ & H3 & _)
  end.
  split; [apply H1; lia |].
  split; [apply H2; lia |].
  split; [apply H3; lia |].
  apply H5. lia.
Defined.

(* ================================================================== *)
(** * Further properties of the arithmetic *)
(* ================================================================== *)

Section Constructed.

Variables (w : Width) (g : Z) (p : Poly).
Hypothesis Hg : 0 < g < 2 ^ nBits w.
Hypothesis Hrun : makePoly w g = Done p.

Lemma constructed_poly : poly p = g.
Proof. now destruct (makePoly_structure w g p Hrun). Qed.

Lemma constructed_index (k : Z) :
  0 <= k < nBits w -> index (x2nTbl p) k = Done (xpow w g (2 ^ k)).
Proof.
  intros Hk. unfold index.
  rewrite (makePoly_table w g p Hg Hrun) by lia.
  now rewrite Z2Nat.id by lia.
Qed.

(** Squaring is a function of the value: x^(2e) is the product sum of
    x^e with itself. *)
Lemma xpow_double (e : Z) :
  0 <= e ->
  xpow w g (2 * e)
  = mulSum g (Z.to_nat (nBits w - 1)) (xpow w g e) (xpow w g e).
Proof.
  intros He. pose proof (nBits_ge w) as Hw.
  pose proof (xpow_pos w g e Hg He) as Hx.
  replace e with (e + (nBits w - 1 - Z.of_nat (Z.to_nat (nBits w - 1))))
    at 3 by lia.
  rewrite mulSum_xpow by lia.
  replace (Z.of_nat (Z.to_nat (nBits w - 1)) + 1) with (nBits w) by lia.
  rewrite Z.mod_small by lia.
  fold (xpow w g e). rewrite <- xpow_add by lia. f_equal. lia.
Qed.

(** ** Generators for which the table may be read round *)

Hypothesis Hwrap : xpow w g (2 ^ nBits w) = xpow w g 1.

Lemma xpow_period_step (r : Z) :
  0 <= r -> xpow w g (2 ^ (r + nBits w)) = xpow w g (2 ^ r).
Proof.
  intros Hr. pose proof (nBits_ge w) as Hw.
  pattern r. apply natlike_ind; [| | exact Hr].
  - rewrite Z.add_0_l. exact Hwrap.
  - intros x Hx IH.
    replace (2 ^ (Z.succ x + nBits w)) with (2 * 2 ^ (x + nBits w))
      by (rewrite <- Z.pow_succ_r by lia; f_equal; lia).
    rewrite Z.pow_succ_r by lia.
    rewrite !xpow_double by (apply Z.pow_nonneg; lia).
    now rewrite IH.
Qed.

Lemma xpow_period (q r : Z) :
  0 <= q -> 0 <= r ->
  xpow w g (2 ^ (r + nBits w * q)) = xpow w g (2 ^ r).
Proof.
  intros Hq Hr. pose proof (nBits_ge w) as Hw.
  pattern q. apply natlike_ind; [| | exact Hq].
  - do 2 f_equal. lia.
  - intros x Hx IH.
    replace (r + nBits w * Z.succ x) with (r + nBits w * x + nBits w) by lia.
    rewrite xpow_period_step by nia. exact IH.
Qed.

Lemma wrapped_index (k : Z) :
  0 <= k -> index (x2nTbl p) (k mod nBits w) = Done (xpow w g (2 ^ k)).
Proof.
  intros Hk. pose proof (nBits_ge w) as Hw.
  pose proof (Z.mod_pos_bound k (nBits w) ltac:(lia)) as Hm.
  rewrite constructed_index by lia. f_equal.
  rewrite (Z.div_mod k (nBits w)) at 2 by lia.
  rewrite Z.add_comm. symmetry. apply xpow_period; [| lia].
  apply Z.div_pos; lia.
Qed.

End Constructed.

(** The loop of [x2NModP], for any table read that is right up to a
    count K: the accumulator is multiplied by x^(n * 2^k). *)
Lemma x2NModP_loop_pow (w : Width) (g : Z) (p : Poly) (K : Z) :
  0 < g < 2 ^ nBits w -> makePoly w g = Done p ->
  (forall k, 0 <= k < K ->
             index (x2nTbl p) (k mod nBits w) = Done (xpow w g (2 ^ k))) ->
  forall (f : nat) (n k j : Z),
    0 <= n < 2 ^ Z.of_nat f -> 0 <= k -> k + Z.of_nat f < 2 ^ nBits w ->
    n < 2 ^ (K - k) -> 0 <= j ->
    x2NModP_loop w p (S f) n k (xpow w g j)
    = Done (xpow w g (j + n * 2 ^ k)).
Proof.
  intros Hg Hrun HT. pose proof (nBits_ge w) as Hw.
  pose proof (constructed_poly w g p Hrun) as Hp.
  induction f as [| f IH]; intros n k j Hn Hk Hkf Hnk Hj;
    rewrite x2NModP_loop_eq.
  - change (2 ^ Z.of_nat 0) with 1 in Hn. assert (n = 0) as -> by lia.
    simpl. do 2 f_equal. lia.
  - destruct (Z.eqb_spec n 0) as [-> | Hn0]; [do 2 f_equal; lia |].
    assert (HkK : k < K).
    { destruct (Z_lt_le_dec k K) as [? | Hge]; [assumption |].
      assert (2 ^ (K - k) <= 1); [| lia].
      destruct (Z.eq_dec k K) as [-> | ?].
      - rewrite Z.sub_diag. reflexivity.
      - rewrite Z.pow_neg_r by lia. lia. }
    pose proof (shiftr1_half n) as Hhalf.
    assert (Hs : 0 <= Z.shiftr n 1) by (apply Z.shiftr_nonneg; lia).
    assert (He : 0 <= 2 ^ k) by (apply Z.pow_nonneg; lia).
    assert (Hk1 : 2 ^ (k + 1) = 2 * 2 ^ k)
      by (rewrite Z.pow_add_r by lia; change (2 ^ 1) with 2; lia).
    assert (Hnk1 : 2 ^ (K - k) = 2 * 2 ^ (K - (k + 1))).
    { replace (K - k) with (K - (k + 1) + 1) by lia.
      rewrite Z.pow_add_r by lia. change (2 ^ 1) with 2. lia. }
    rewrite Nat2Z.inj_succ in Hkf.
    rewrite Nat2Z.inj_succ, Z.pow_succ_r in Hn by lia.
    rewrite low_bit_test, land_width_mask.
    rewrite uint_small by lia.
    destruct (Z.odd n) eqn:Eo.
    + rewrite HT by lia. cbn [mbind outcome_bind].
      rewrite <- Hp at 2.
      rewrite multModP_xpow by (try apply xpow_pos; lia).
      rewrite Hp, <- xpow_add by lia. cbn [mbind outcome_bind].
      rewrite IH by lia. do 2 f_equal. nia.
    + cbn [mbind outcome_bind]. rewrite IH by lia. do 2 f_equal. nia.
Qed.

Lemma counter_room (w : Width) (k : Z) :
  k <= nBits w -> k + Z.of_nat 63 < 2 ^ nBits w.
Proof.
  intros Hk. pose proof (nBits_le w).
  assert (2 ^ 32 <= 2 ^ nBits w)
    by (apply Z.pow_le_mono_r; pose proof (nBits_ge w); lia).
  change (2 ^ 32) with 4294967296 in *. lia.
Qed.

(** X7.  [x2NModP n k] is x^(n * 2^k), as its comment says, as long as the
    bits of n do not carry the index past the end of the table. *)
Theorem x2NModP_pow (w : Width) (g : Z) (p : Poly) (n k : Z) :
  0 < g < 2 ^ nBits w -> makePoly w g = Done p ->
  0 <= k -> 0 <= n < 2 ^ 63 -> n < 2 ^ (nBits w - k) ->
  x2NModP w p n k = Done (xpow w g (n * 2 ^ k)).
Proof.
  intros Hg Hrun Hk Hn Hnk. pose proof (nBits_ge w) as Hw.
  unfold x2NModP, x2NModP_fuel. rewrite shl_top.
  change (one w) with (xpow w g 0).
  destruct (Z.eq_dec n 0) as [-> | Hn0]; [reflexivity |].
  assert (Hkw : k < nBits w).
  { destruct (Z_lt_le_dec k (nBits w)) as [? | Hge]; [assumption |].
    assert (2 ^ (nBits w - k) <= 1); [| lia].
    destruct (Z.eq_dec k (nBits w)) as [-> | ?].
    - rewrite Z.sub_diag. reflexivity.
    - rewrite Z.pow_neg_r by lia. lia. }
  rewrite (x2NModP_loop_pow w g p (nBits w) Hg Hrun);
    [reflexivity | | exact Hn | lia | apply counter_room; lia | lia | lia].
  intros i Hi. rewrite Z.mod_small by lia.
  now apply constructed_index.
Qed.

(** x2NModP n k is x^(n * 2^k) for every non-negative int64 n when
    x^(2^nBits) = x modulo the generator. *)
Lemma x2NModP_pow_wrapped (w : Width) (g : Z) (p : Poly) (n k : Z) :
  0 < g < 2 ^ nBits w -> makePoly w g = Done p ->
  xpow w g (2 ^ nBits w) = xpow w g 1 ->
  0 <= k <= nBits w -> 0 <= n < 2 ^ 63 ->
  x2NModP w p n k = Done (xpow w g (n * 2 ^ k)).
Proof.
  intros Hg Hrun Hwrap Hk Hn. pose proof (nBits_ge w) as Hw.
  unfold x2NModP, x2NModP_fuel. rewrite shl_top.
  change (one w) with (xpow w g 0).
  rewrite (x2NModP_loop_pow w g p (k + 63) Hg Hrun);
    [reflexivity | | exact Hn | lia | apply counter_room; lia | | lia].
  - intros i Hi. apply (wrapped_index w g p Hg Hrun Hwrap). lia.
  - replace (k + 63 - k) with 63 by lia. lia.
Qed.

Lemma wraps_xpow (w : Width) (g : Z) (p : Poly) :
  0 < g < 2 ^ nBits w -> makePoly w g = Done p -> wraps w p ->
  xpow w g (2 ^ nBits w) = xpow w g 1.
Proof.
  intros Hg Hrun (t & Ht & Hsq). pose proof (nBits_ge w) as Hw.
  rewrite (constructed_index w g p Hg Hrun 0) in Hsq by lia.
  unfold index in Ht.
  destruct (x2nTbl p !! Z.to_nat (nBits w - 1)) as [t' |] eqn:E;
    [| discriminate Ht].
  apply Done_inj in Ht. subst t'.
  rewrite (xpow_wrap_square w g p t Hg Hrun E) in Hsq.
  now apply Done_inj in Hsq.
Qed.

(** ** Combine and Update *)

(** Whenever [x2NModP] returns x^(8 * len b), [Combine] of any sum s with
    the checksum of b is [Update] of s by b. *)
Lemma Combine_Update_when (w : Width) (g : Z) (p : Poly) (s : Z)
      (b : list byte) :
  0 < g < 2 ^ nBits w -> makePoly w g = Done p ->
  0 <= s < 2 ^ nBits w ->
  (0 < len b ->
   x2NModP w p (len b) 3 = Done (xpow w g (8 * len b))) ->
  Combine w p s (Checksum w p b) (len b) = Done (Update w p s b).
Proof.
  intros Hg Hrun Hs Hx.
  destruct (makePoly_structure w g p Hrun) as (Hp & Hst & _).
  rewrite (Update_shift w p g) by exact Hst.
  pose proof (len_nonneg b) as Hb.
  unfold Combine.
  destruct (Z.eqb_spec s 0) as [-> | Hne].
  - now rewrite mulXn_zero, Z.lxor_0_l.
  - destruct (Z.leb_spec (len b) 0) as [Hle | Hpos].
    + rewrite (len_zero_nil b) by lia.
      change (len []) with 0. change (8 * 0) with 0. rewrite mulXn_0.
      change (Checksum w p []) with (Update w p 0 []).
      now rewrite Update_nil, Z.lxor_0_r.
    + rewrite Hx by exact Hpos. cbn [mbind outcome_bind].
      rewrite <- Hp at 1. rewrite multModP_xpow by lia.
      now rewrite Hp.
Qed.

(** X2.  For every non-zero generator, every sum s of the width and every
    block b shorter than 2^(nBits-3) bytes, Combine of s with the
    checksum of b and the length of b is Update of s by b. *)
Theorem Combine_Update (w : Width) (g : Z) (p : Poly) (s : Z)
        (b : list byte) :
  0 < g < 2 ^ nBits w -> makePoly w g = Done p ->
  0 <= s < 2 ^ nBits w -> len b < 2 ^ (nBits w - 3) ->
  Combine w p s (Checksum w p b) (len b) = Done (Update w p s b).
Proof.
  intros Hg Hrun Hs Hb. apply (Combine_Update_when w g); auto.
  intros Hpos. apply (x2NModP_xpow w g); auto. lia.
Qed.

Lemma Combine_Update_witness :
  exists p,
    makePoly W32 std.Koopman = Done p
    /\ Combine W32 p 77 (Checksum W32 p [x31; x32; x33])
               (len [x31; x32; x33])
       = Done (Update W32 p 77 [x31; x32; x33]).
Proof.
  eexists. split; [vm_compute; reflexivity |].
  apply (Combine_Update W32 std.Koopman);
    [cbv [nBits Size std.Koopman]; lia | vm_compute; reflexivity
     | cbv [nBits Size]; lia | cbv [nBits Size len length]; lia].
Defined.

(** When the square of the last table entry is the first entry, the same
    holds for every length an int64 has. *)
Lemma Combine_Update_wrapped (w : Width) (g : Z) (p : Poly) (s : Z)
        (b : list byte) :
  0 < g < 2 ^ nBits w -> makePoly w g = Done p -> wraps w p ->
  0 <= s < 2 ^ nBits w -> len b < 2 ^ 63 ->
  Combine w p s (Checksum w p b) (len b) = Done (Update w p s b).
Proof.
  intros Hg Hrun Hw Hs Hb. apply (Combine_Update_when w g); auto.
  intros Hpos. pose proof (nBits_ge w). pose proof (len_nonneg b).
  rewrite (x2NModP_pow_wrapped w g p (len b) 3 Hg Hrun).
  - do 2 f_equal. change (2 ^ 3) with 8. lia.
  - now apply (wraps_xpow w g p).
  - lia.
  - lia.
Qed.

Lemma IEEE_wraps (p : Poly) : makePoly W32 std.IEEE = Done p -> wraps W32 p.
Proof.
  intros Hrun.
  assert (H : exists q, makePoly W32 std.IEEE = Done q /\ wraps W32 q).
  { eexists. split; [vm_compute; reflexivity |].
    eexists. split; [vm_compute; reflexivity | vm_compute; reflexivity]. }
  destruct H as (q & Hq & Hw). rewrite Hrun in Hq.
  apply Done_inj in Hq. now subst q.
Qed.

Lemma ISO_wraps (p : Poly) : makePoly W64 std.ISO = Done p -> wraps W64 p.
Proof.
  intros Hrun.
  assert (H : exists q, makePoly W64 std.ISO = Done q /\ wraps W64 q).
  { eexists. split; [vm_compute; reflexivity |].
    eexists. split; [vm_compute; reflexivity | vm_compute; reflexivity]. }
  destruct H as (q & Hq & Hw). rewrite Hrun in Hq.
  apply Done_inj in Hq. now subst q.
Qed.

(** X3.  Under the IEEE polynomial (crc32) and the ISO polynomial (crc64)
    Combine agrees with Update, and with the checksum of the
    concatenation, for blocks of every length. *)
Theorem Combine_IEEE_ISO (w : Width) (g : Z) (p : Poly) (s : Z)
        (a b : list byte) :
  (w = W32 /\ g = std.IEEE) \/ (w = W64 /\ g = std.ISO) ->
  makePoly w g = Done p ->
  0 <= s < 2 ^ nBits w -> len b < 2 ^ 63 ->
  Combine w p s (Checksum w p b) (len b) = Done (Update w p s b)
  /\ Combine w p (Checksum w p a) (Checksum w p b) (len b)
     = Done (Checksum w p (a ++ b)).
Proof.
  intros Hwg Hrun Hs Hb.
  assert (Hg : 0 < g < 2 ^ nBits w)
    by (destruct Hwg as [[-> ->] | [-> ->]]; vm_compute; auto).
  assert (Hw : wraps w p).
  { destruct Hwg as [[-> ->] | [-> ->]];
      [now apply IEEE_wraps | now apply ISO_wraps]. }
  split; [now apply (Combine_Update_wrapped w g) |].
  rewrite Checksum_app. apply (Combine_Update_wrapped w g); auto.
  destruct (makePoly_structure w g p Hrun) as (_ & Hst & _).
  apply (Checksum_range w p g); [lia | exact Hst].
Qed.

Lemma Combine_IEEE_ISO_witness :
  exists p,
    makePoly W64 std.ISO = Done p
    /\ Combine W64 p 5 (Checksum W64 p [x61; x62]) (len [x61; x62])
       = Done (Update W64 p 5 [x61; x62])
    /\ Combine W64 p (Checksum W64 p [x7a]) (Checksum W64 p [x61; x62])
               (len [x61; x62])
       = Done (Checksum W64 p ([x7a] ++ [x61; x62])).
Proof.
  eexists. split; [vm_compute; reflexivity |].
  apply (Combine_IEEE_ISO W64 std.ISO);
    [right; split; reflexivity | vm_compute; reflexivity
     | cbv [nBits Size]; lia | cbv [len length]; lia].
Defined.

(** ** What x2NModP computes on every input *)

Lemma x2n_exp_nonneg (w : Width) (bits : list bool) :
  forall k, 0 <= x2n_exp w bits k.
Proof.
  induction bits as [| b bits IH]; intros k; cbn [x2n_exp]; [lia |].
  pose proof (IH (k + 1)).
  assert (0 <= 2 ^ (k mod nBits w)) by (apply Z.pow_nonneg; lia).
  destruct b; lia.
Qed.

Lemma x2NModP_fold_exp (w : Width) (g : Z) (p : Poly) :
  0 < g < 2 ^ nBits w -> makePoly w g = Done p ->
  forall (bits : list bool) (k j : Z),
    0 <= j ->
    x2NModP_fold w p bits k (xpow w g j)
    = Done (xpow w g (j + x2n_exp w bits k)).
Proof.
  intros Hg Hrun. pose proof (nBits_ge w) as Hw.
  pose proof (constructed_poly w g p Hrun) as Hp.
  induction bits as [| b bits IH]; intros k j Hj; cbn [x2NModP_fold x2n_exp].
  - do 2 f_equal. lia.
  - pose proof (Z.mod_pos_bound k (nBits w) ltac:(lia)) as Hm.
    assert (He : 0 <= 2 ^ (k mod nBits w)) by (apply Z.pow_nonneg; lia).
    destruct b.
    + rewrite (constructed_index w g p Hg Hrun) by lia.
      cbn [mbind outcome_bind]. rewrite <- Hp at 2.
      rewrite multModP_xpow by (try apply xpow_pos; lia).
      rewrite Hp, <- xpow_add by lia. cbn [mbind outcome_bind].
      rewrite IH by lia. do 2 f_equal. lia.
    + cbn [mbind outcome_bind]. rewrite IH by lia. do 2 f_equal.
Qed.

Lemma x2NModP_as_fold (w : Width) (p : Poly) (n k : Z) :
  0 <= n < 2 ^ 63 -> 0 <= k < 2 ^ nBits w ->
  x2NModP w p n k
  = x2NModP_fold w p (bits_of n) k (shl w 1 (nBits w - 1)).
Proof.
  intros Hn Hk. destruct n as [| q | q]; [reflexivity | | lia].
  unfold x2NModP, x2NModP_fuel. cbn [bits_of].
  rewrite <- (Z.mod_small k (2 ^ nBits w)) at 1 by lia.
  apply x2NModP_loop_fold. change (Z.of_nat 63) with 63. lia.
Qed.

Lemma x2NModP_value (w : Width) (g : Z) (p : Poly) (n k : Z) :
  0 < g < 2 ^ nBits w -> makePoly w g = Done p ->
  0 <= n < 2 ^ 63 -> 0 <= k < 2 ^ nBits w ->
  x2NModP w p n k = Done (xpow w g (x2n_exp w (bits_of n) k)).
Proof.
  intros Hg Hrun Hn Hk.
  rewrite (x2NModP_as_fold w p n k Hn Hk).
  rewrite shl_top. change (one w) with (xpow w g 0).
  now rewrite (x2NModP_fold_exp w g p Hg Hrun) by lia.
Qed.

(** X8.  For every non-negative int64 n, x2NModP n k returns x to the sum
    of 2^((k + i) mod nBits) over the set bits i of n. *)
Theorem x2NModP_exact (w : Width) (g : Z) (p : Poly) (n k : Z) :
  0 < g < 2 ^ nBits w -> makePoly w g = Done p ->
  0 <= n < 2 ^ 63 -> 0 <= k < 2 ^ nBits w ->
  x2NModP w p n k = Done (xpow w g (x2n_exp w (bits_of n) k)).
Proof. apply x2NModP_value. Qed.

Lemma x2NModP_exact_witness :
  exists p,
    makePoly W32 std.Castagnoli = Done p
    /\ x2NModP W32 p (2 ^ 29) 3
       = Done (xpow W32 std.Castagnoli
                    (x2n_exp W32 (bits_of (2 ^ 29)) 3)).
Proof.
  eexists. split; [vm_compute; reflexivity |].
  apply (x2NModP_exact W32 std.Castagnoli);
    [cbv [nBits Size std.Castagnoli]; lia | vm_compute; reflexivity
     | lia | cbv [nBits Size]; lia].
Defined.

(** X4.  Combine with a Poly that makePoly built returns a value of the
    width for every int64 length and all sums of the width: it neither
    panics nor runs on. *)
Theorem Combine_total (w : Width) (g : Z) (p : Poly) (prev next n : Z) :
  0 < g < 2 ^ nBits w -> makePoly w g = Done p ->
  0 <= prev < 2 ^ nBits w -> 0 <= next < 2 ^ nBits w ->
  - 2 ^ 63 <= n < 2 ^ 63 ->
  exists r, Combine w p prev next n = Done r /\ 0 <= r < 2 ^ nBits w.
Proof.
  intros Hg Hrun Hprev Hnext Hn. pose proof (nBits_ge w) as Hw.
  pose proof (constructed_poly w g p Hrun) as Hp.
  unfold Combine.
  destruct (Z.eqb_spec prev 0) as [-> | Hne]; [now exists next |].
  destruct (Z.leb_spec n 0) as [Hle | Hpos]; [now exists prev |].
  rewrite (x2NModP_value w g p n 3 Hg Hrun)
    by (pose proof (width_above_64 w); lia).
  cbn [mbind outcome_bind].
  pose proof (multModP_xpow w p prev (x2n_exp w (bits_of n) 3)
                            ltac:(lia) (x2n_exp_nonneg w _ 3)) as Hm.
  rewrite Hp in Hm. rewrite Hm.
  cbn [mbind outcome_bind]. eexists. split; [reflexivity |].
  apply lxor_range; [lia | | exact Hnext].
  apply mulXn_range; lia.
Qed.

Lemma Combine_total_witness :
  exists p,
    makePoly W64 std.ECMA = Done p
    /\ exists r, Combine W64 p 1 2 (2 ^ 62) = Done r
                 /\ 0 <= r < 2 ^ nBits W64.
Proof.
  eexists. split; [vm_compute; reflexivity |].
  apply (Combine_total W64 std.ECMA);
    [cbv [nBits Size std.ECMA]; lia | vm_compute; reflexivity
     | cbv [nBits Size]; lia | cbv [nBits Size]; lia | lia].
Defined.

(** ** What makePoly builds *)

(** X9.  For every non-zero polynomial of the width makePoly returns a
    Poly with that polynomial, the byte table of the standard library
    for it, and a table of nBits non-zero entries, entry k being
    x^(2^k). *)
Theorem makePoly_nonzero (w : Width) (g : Z) :
  0 < g < 2 ^ nBits w ->
  exists p,
    makePoly w g = Done p
    /\ Polynomial p = g /\ stdlib p = std.MakeTable g
    /\ length (x2nTbl p) = Z.to_nat (nBits w)
    /\ forall k, 0 <= k < nBits w ->
         index (x2nTbl p) k = Done (xpow w g (2 ^ k))
         /\ 0 < xpow w g (2 ^ k) < 2 ^ nBits w.
Proof.
  intros Hg. destruct (makePoly_progress w g Hg) as [p Hrun].
  destruct (makePoly_structure w g p Hrun) as (Hp & Hs & Hl & _).
  exists p. repeat (split; [assumption |]).
  intros k Hk. split; [now apply constructed_index |].
  apply xpow_pos; [exact Hg |]. apply Z.pow_nonneg. lia.
Qed.

Lemma makePoly_nonzero_witness :
  exists p,
    makePoly W32 1 = Done p
    /\ Polynomial p = 1 /\ stdlib p = std.MakeTable 1
    /\ length (x2nTbl p) = Z.to_nat (nBits W32)
    /\ forall k, 0 <= k < nBits W32 ->
         index (x2nTbl p) k = Done (xpow W32 1 (2 ^ k))
         /\ 0 < xpow W32 1 (2 ^ k) < 2 ^ nBits W32.
Proof.
  apply makePoly_nonzero. cbv [nBits Size]. lia.
Defined.

(** ** multModP as a multiplication *)

Lemma mulSum_lxor_r (g : Z) (t : nat) (a : Z) :
  forall b c,
    mulSum g t a (Z.lxor b c) = Z.lxor (mulSum g t a b) (mulSum g t a c).
Proof.
  induction t as [| t IH]; intros b c; cbn [mulSum].
  - destruct (Z.testbit a (Z.of_nat 0)); xor_bits.
  - rewrite mulX_lxor, IH.
    generalize (mulSum g t a (mulX g b)) (mulSum g t a (mulX g c)).
    intros u v. destruct (Z.testbit a (Z.of_nat (S t))); xor_bits.
Qed.

Lemma mulSum_0_r (g : Z) (t : nat) (a : Z) : mulSum g t a 0 = 0.
Proof.
  induction t as [| t IH]; cbn [mulSum].
  - now destruct (Z.testbit a (Z.of_nat 0)).
  - rewrite mulX_0, IH. now destruct (Z.testbit a (Z.of_nat (S t))).
Qed.

(** The full sum against a monomial. *)
Lemma mulSum_monomial (w : Width) (g a s : Z) :
  0 <= a < 2 ^ nBits w -> 0 <= s <= nBits w - 1 ->
  mulSum g (Z.to_nat (nBits w - 1)) a (2 ^ s)
  = mulXn g (nBits w - 1 - s) a.
Proof.
  intros Ha Hs. pose proof (nBits_ge w) as Hw.
  replace (2 ^ s)
    with (xpow w g (nBits w - 1 - s
                    + (nBits w - 1 - Z.of_nat (Z.to_nat (nBits w - 1)))))
    by (rewrite xpow_small by lia; f_equal; lia).
  rewrite mulSum_xpow by lia.
  replace (Z.of_nat (Z.to_nat (nBits w - 1)) + 1) with (nBits w) by lia.
  now rewrite Z.mod_small by lia.
Qed.

(** The sum over the bits of a against the low bits of b is the sum
    over those bits of b against a. *)
Lemma mulSum_swap (w : Width) (g a b : Z) (t : nat) :
  0 <= a < 2 ^ nBits w -> Z.of_nat t <= nBits w - 1 ->
  mulSum g (Z.to_nat (nBits w - 1)) a (b mod 2 ^ (Z.of_nat t + 1))
  = mulSum g t b (mulXn g (nBits w - 1 - Z.of_nat t) a).
Proof.
  intros Ha. pose proof (nBits_ge w) as Hw.
  induction t as [| t IH]; intros Ht.
  - cbn [mulSum]. rewrite mod_pow2_succ by lia.
    change (2 ^ Z.of_nat 0) with 1. rewrite Z.mod_1_r, !Z.lxor_0_r.
    destruct (Z.testbit b (Z.of_nat 0)); [| apply mulSum_0_r].
    change 1 with (2 ^ 0). rewrite (mulSum_monomial w) by lia.
    f_equal.
  - cbn [mulSum].
    replace (Z.of_nat (S t) + 1) with (Z.of_nat t + 1 + 1) by lia.
    rewrite (mod_pow2_succ b (Z.of_nat t + 1)) by lia.
    rewrite mulSum_lxor_r, IH by lia.
    replace (Z.of_nat (S t)) with (Z.of_nat t + 1) by lia.
    rewrite <- mulXn_succ by lia.
    replace (nBits w - 1 - (Z.of_nat t + 1) + 1)
      with (nBits w - 1 - Z.of_nat t) by lia.
    f_equal.
    destruct (Z.testbit b (Z.of_nat t + 1)); [| apply mulSum_0_r].
    now rewrite (mulSum_monomial w) by lia.
Qed.

(** X11.  [multModP] is commutative on non-zero values of the width. *)
Theorem multModP_comm (w : Width) (p : Poly) (a b : Z) :
  0 < a < 2 ^ nBits w -> 0 < b < 2 ^ nBits w ->
  multModP w p a b = multModP w p b a.
Proof.
  intros Ha Hb. pose proof (nBits_ge w) as Hw.
  rewrite !multModP_spec by assumption. f_equal.
  rewrite <- (Z.mod_small b (2 ^ nBits w)) at 1 by lia.
  replace (nBits w) with (Z.of_nat (Z.to_nat (nBits w - 1)) + 1) at 2 by lia.
  rewrite (mulSum_swap w) by lia.
  replace (nBits w - 1 - Z.of_nat (Z.to_nat (nBits w - 1))) with 0 by lia.
  now rewrite mulXn_0.
Qed.

Lemma multModP_comm_witness :
  exists p,
    makePoly W32 std.IEEE = Done p
    /\ multModP W32 p 123456789 987654321
       = multModP W32 p 987654321 123456789.
Proof.
  eexists. split; [vm_compute; reflexivity |].
  apply multModP_comm; cbv [nBits Size]; lia.
Defined.

(** X12.  1 << (nBits-1), the polynomial 1, is the identity of multModP on
    both sides, and multModP is additive in its second argument. *)
Theorem multModP_identity (w : Width) (p : Poly) (a b c : Z) :
  0 < a < 2 ^ nBits w ->
  multModP w p (shl w 1 (nBits w - 1)) b = Done b
  /\ multModP w p a (shl w 1 (nBits w - 1)) = Done a
  /\ exists u v,
      multModP w p a b = Done u /\ multModP w p a c = Done v
      /\ multModP w p a (Z.lxor b c) = Done (Z.lxor u v).
Proof.
  intros Ha. pose proof (nBits_ge w) as Hw. rewrite shl_top.
  split; [| split].
  - rewrite multModP_spec by apply one_range. f_equal.
    replace (Z.to_nat (nBits w - 1)) with (S (Z.to_nat (nBits w - 2))) by lia.
    cbn [mulSum].
    replace (Z.of_nat (S (Z.to_nat (nBits w - 2)))) with (nBits w - 1) by lia.
    unfold one. rewrite Z.pow2_bits_true by lia.
    rewrite mulSum_zero; [apply Z.lxor_0_r |].
    replace (Z.of_nat (Z.to_nat (nBits w - 2)) + 1) with (nBits w - 1) by lia.
    apply Z.mod_same. pose proof (pow2_lt_width w (nBits w - 1)). lia.
  - change (one w) with (xpow w (poly p) 0).
    now rewrite multModP_xpow by lia.
  - rewrite !multModP_spec by assumption.
    eexists. eexists. split; [reflexivity |]. split; [reflexivity |].
    f_equal. apply mulSum_lxor_r.
Qed.

Lemma multModP_identity_witness :
  exists p,
    makePoly W64 std.ISO = Done p
    /\ multModP W64 p (shl W64 1 (nBits W64 - 1)) 5 = Done 5
    /\ multModP W64 p 7 (shl W64 1 (nBits W64 - 1)) = Done 7
    /\ exists u v,
        multModP W64 p 7 5 = Done u /\ multModP W64 p 7 9 = Done v
        /\ multModP W64 p 7 (Z.lxor 5 9) = Done (Z.lxor u v).
Proof.
  eexists. split; [vm_compute; reflexivity |].
  apply multModP_identity. cbv [nBits Size]. lia.
Defined.

(** ** Checksum and Update *)

(** X13.  Checksum is Update from 0; Update by no bytes changes nothing;
    Update by a then by b is Update by a followed by b. *)
Theorem Update_compose (w : Width) (p : Poly) (s : Z) (a b : list byte) :
  Checksum w p a = Update w p 0 a
  /\ Update w p s [] = s
  /\ Update w p (Update w p s a) b = Update w p s (a ++ b).
Proof.
  split; [reflexivity |]. split; [apply Update_nil |].
  symmetry. apply Update_app.
Qed.

(** X14.  With the byte table of a polynomial g, Update from a sum s is the
    checksum of the data plus s times x^(8 * len), and sums of the width
    stay of the width. *)
Theorem Update_affine (w : Width) (p : Poly) (g s : Z) (data : list byte) :
  stdlib p = std.MakeTable g ->
  Update w p s data
  = Z.lxor (mulXn g (8 * len data) s) (Checksum w p data)
  /\ (0 <= g < 2 ^ nBits w -> 0 <= s < 2 ^ nBits w ->
      0 <= Update w p s data < 2 ^ nBits w).
Proof.
  intros Hs. split; [now apply Update_shift |].
  intros Hg Hr. now apply (Update_range w p g).
Qed.

Lemma Update_affine_witness :
  exists p,
    makePoly W32 std.IEEE = Done p
    /\ Update W32 p 9 [x41; x42]
       = Z.lxor (mulXn std.IEEE (8 * len [x41; x42]) 9)
                (Checksum W32 p [x41; x42])
    /\ (0 <= std.IEEE < 2 ^ nBits W32 -> 0 <= 9 < 2 ^ nBits W32 ->
        0 <= Update W32 p 9 [x41; x42] < 2 ^ nBits W32).
Proof.
  eexists. split; [vm_compute; reflexivity |].
  apply Update_affine. vm_compute. reflexivity.
Defined.

(** X5.  Three adjacent blocks can be combined in either grouping; both
    give the checksum of the whole. *)
Theorem Combine_grouping (w : Width) (g : Z) (p : Poly)
        (a b c : list byte) :
  0 < g < 2 ^ nBits w -> makePoly w g = Done p ->
  len b + len c < 2 ^ (nBits w - 3) ->
  (r ← Combine w p (Checksum w p a) (Checksum w p b) (len b);
   Combine w p r (Checksum w p c) (len c))
  = Done (Checksum w p (a ++ b ++ c))
  /\ (r ← Combine w p (Checksum w p b) (Checksum w p c) (len c);
      Combine w p (Checksum w p a) r (len b + len c))
     = Done (Checksum w p (a ++ b ++ c)).
Proof.
  intros Hg Hrun Hlen.
  pose proof (len_nonneg b) as Hb. pose proof (len_nonneg c) as Hc.
  assert (Hbc : len (b ++ c) = len b + len c)
    by (unfold len; rewrite length_app; lia).
  assert (Hlaw : forall u v, len v < 2 ^ (nBits w - 3) ->
            Combine w p (Checksum w p u) (Checksum w p v) (len v)
            = Done (Checksum w p (u ++ v))).
  { intros u v Hv. rewrite Checksum_app.
    destruct (makePoly_structure w g p Hrun) as (_ & Hst & _).
    apply (Combine_Update_when w g); auto.
    - apply (Checksum_range w p g); [lia | exact Hst].
    - intros Hpos. apply (x2NModP_xpow w g); auto.
      pose proof (len_nonneg v). lia. }
  split.
  - rewrite Hlaw by lia. cbn [mbind outcome_bind].
    rewrite Hlaw by lia. now rewrite <- app_assoc.
  - rewrite Hlaw by lia. cbn [mbind outcome_bind]. rewrite <- Hbc.
    now rewrite Hlaw by lia.
Qed.

Lemma Combine_grouping_witness :
  exists p,
    makePoly W32 std.Castagnoli = Done p
    /\ (r ← Combine W32 p (Checksum W32 p [x61]) (Checksum W32 p [x62])
                    (len [x62]);
        Combine W32 p r (Checksum W32 p [x63]) (len [x63]))
       = Done (Checksum W32 p ([x61] ++ [x62] ++ [x63]))
    /\ (r ← Combine W32 p (Checksum W32 p [x62]) (Checksum W32 p [x63])
                    (len [x63]);
        Combine W32 p (Checksum W32 p [x61]) r (len [x62] + len [x63]))
       = Done (Checksum W32 p ([x61] ++ [x62] ++ [x63])).
Proof.
  eexists. split; [vm_compute; reflexivity |].
  apply (Combine_grouping W32 std.Castagnoli);
    [cbv [nBits Size std.Castagnoli]; lia | vm_compute; reflexivity
     | cbv [nBits Size len length]; lia].
Defined.

(** ** The end of the table *)

(** X6.  At the length 2^(nBits-3), the first whose index leaves the
    table, Combine multiplies the previous sum by x alone, for every
    generator. *)
Theorem Combine_at_table_end (w : Width) (g : Z) (p : Poly)
        (prev next : Z) :
  0 < g < 2 ^ nBits w -> makePoly w g = Done p ->
  0 < prev < 2 ^ nBits w ->
  Combine w p prev next (2 ^ (nBits w - 3))
  = Done (Z.lxor (mulX g prev) next).
Proof.
  intros Hg Hrun Hprev.
  pose proof (constructed_poly w g p Hrun) as Hp.
  assert (Hx : x2NModP w p (2 ^ (nBits w - 3)) 3 = Done (xpow w g 1)).
  { rewrite (x2NModP_value w g p _ 3 Hg Hrun).
    - destruct w; reflexivity.
    - destruct w; cbv [nBits Size]; lia.
    - pose proof (width_above_64 w). lia. }
  unfold Combine.
  destruct (Z.eqb_spec prev 0) as [? | _]; [lia |].
  destruct (Z.leb_spec (2 ^ (nBits w - 3)) 0) as [Hle | _].
  { pose proof (pow2_lt_width w (nBits w - 3)).
    pose proof (nBits_ge w). lia. }
  rewrite Hx. cbn [mbind outcome_bind]. rewrite <- Hp at 1.
  rewrite multModP_xpow by lia. rewrite Hp. reflexivity.
Qed.

Lemma Combine_at_table_end_witness :
  exists p,
    makePoly W32 std.Koopman = Done p
    /\ Combine W32 p 3 0 (2 ^ (nBits W32 - 3))
       = Done (Z.lxor (mulX std.Koopman 3) 0).
Proof.
  eexists. split; [vm_compute; reflexivity |].
  apply (Combine_at_table_end W32 std.Koopman);
    [cbv [nBits Size std.Koopman]; lia | vm_compute; reflexivity
     | cbv [nBits Size]; lia].
Defined.

Lemma x2NModP_pow_witness :
  exists p,
    makePoly W32 std.IEEE = Done p
    /\ x2NModP W32 p 1000 3 = Done (xpow W32 std.IEEE (1000 * 2 ^ 3)).
Proof.
  eexists. split; [vm_compute; reflexivity |].
  apply (x2NModP_pow W32 std.IEEE);
    [cbv [nBits Size std.IEEE]; lia | vm_compute; reflexivity
     | lia | lia | cbv [nBits Size]; lia].
Defined.

Lemma Combine_Checksum_concat_witness :
  exists p,
    makePoly W32 std.IEEE = Done p
    /\ Combine W32 p (Checksum W32 p [x31; x32; x33; x34])
               (Checksum W32 p [x35; x36; x37; x38; x39])
               (len [x35; x36; x37; x38; x39])
       = Done (Checksum W32 p ([x31; x32; x33; x34]
                               ++ [x35; x36; x37; x38; x39]))
    /\ Combine W32 p (Checksum W32 p [x31; x32; x33; x34])
               (Update W32 p 0 [x35; x36; x37; x38; x39])
               (len [x35; x36; x37; x38; x39])
       = Done (Update W32 p (Checksum W32 p [x31; x32; x33; x34])
                      [x35; x36; x37; x38; x39]).
Proof.
  eexists. split; [vm_compute; reflexivity |].
  apply (Combine_Checksum_concat W32 std.IEEE);
    [cbv [nBits Size std.IEEE]; lia | vm_compute; reflexivity
     | cbv [nBits Size len length]; lia].
Defined.
